(** * A shallow embedding of the key-value server (buffer.cpp, server.cpp)

    The ring buffer of [buffer.cpp] and the command dispatcher, the codec,
    the TTL timers and the append-only log of [server.cpp] are embedded as
    executable Rocq functions; the properties of the specification are
    proved about them below.

    Conventions.
    - A byte is an [ascii]; a [std::string] is a [string]; raw memory is a
      total function from physical index to byte.  [memcpy] is a functional
      update of that function; it does not check array bounds.
    - [size_t] values are integers of [Z].  Sums and products of sizes of
      live objects stay far below 2^64 and are written without reduction;
      a difference wraps around explicitly ([size_sub]), and so do the
      casts to [uint32_t] and [uint64_t].
    - Multi-byte integers are copied to and from memory in host order; the
      host is taken to be little-endian.
    - The clock, the result of [write(2)] and the success of the file
      system calls are inputs ([Env]). *)

From Stdlib Require Import ZArith Lia List Ascii String Bool.
From Stdlib Require Import OrderedTypeEx Sorting.Sorted.
From stdpp Require Import base numbers list strings gmap.

Local Open Scope Z_scope.

(** ** Machine integers and their memory representation *)

Definition size_max : Z := 2 ^ 64 - 1.

(** [a - b] on [size_t]: wraps modulo 2^64 below zero. *)
Definition size_sub (a b : Z) : Z :=
  if a <? b then a - b + 2 ^ 64 else a - b.

Definition u32 (z : Z) : Z := z mod 2 ^ 32.
Definition u64 (z : Z) : Z := z mod 2 ^ 64.

(** [(int64_t)z] for an unsigned 64-bit [z]. *)
Definition i64 (z : Z) : Z :=
  let r := z mod 2 ^ 64 in if r <? 2 ^ 63 then r else r - 2 ^ 64.

Definition byte_of_Z (z : Z) : ascii := ascii_of_N (Z.to_N (z mod 256)).
Definition Z_of_byte (a : ascii) : Z := Z.of_N (N_of_ascii a).

(** The [n] bytes of an integer object, least significant first. *)
Fixpoint le_bytes (n : nat) (z : Z) : list ascii :=
  match n with
  | O => []
  | S n' => byte_of_Z z :: le_bytes n' (z / 256)
  end.

Fixpoint le_decode (bs : list ascii) : Z :=
  match bs with
  | [] => 0
  | b :: bs' => Z_of_byte b + 256 * le_decode bs'
  end.

Definition bytes_of (s : string) : list ascii := list_ascii_of_string s.
Definition str_of (bs : list ascii) : string := string_of_list_ascii bs.
Definition strlen (s : string) : Z := Z.of_nat (String.length s).

(** ** Raw memory *)

Definition memory := Z -> ascii.

(** [new uint8_t[n]]: the content is indeterminate; the model fills it
    with a fixed byte, which no theorem relies on. *)
Definition uninit : memory := fun _ => zero.

Definition of_list (l : list ascii) : memory :=
  fun i => if i <? 0 then zero else nth (Z.to_nat i) l zero.

(** [memcpy(dst + d, src + s, n)]. *)
Definition memcpy (dst : memory) (d : Z) (src : memory) (s : Z) (n : Z) : memory :=
  fun i => if (d <=? i) && (i <? d + n) then src (s + (i - d)) else dst i.

(** The [n] bytes of [m] from physical index [off]. *)
Definition read (m : memory) (off n : Z) : list ascii :=
  map (fun i => m (off + Z.of_nat i)) (seq 0 (Z.to_nat n)).

(** ** buffer.cpp: the ring buffer *)

Module Buffer.

Record t := mk {
  head : Z;
  tail : Z;
  capacity : Z;
  _size : Z;
  data : memory
}.

(** [Buffer::Buffer(size_t capacity = 1024)] *)
Definition new (capacity : Z) : t :=
  {| head := 0; tail := 0; _size := 0; capacity := capacity; data := uninit |}.

Definition default : t := new 1024.

Definition size (b : t) : Z := _size b.

Definition empty (b : t) : bool := _size b =? 0.

(** [Buffer::resize]: reallocates with the new capacity and unwraps the
    content to the front.  [_size] is not changed. *)
Definition resize (b : t) (new_capacity : Z) : t :=
  let new_data :=
    if head b <? tail b then
      memcpy uninit 0 (data b) (head b) (_size b)
    else
      let right := size_sub (capacity b) (head b) in
      memcpy (memcpy uninit 0 (data b) (head b) right) right (data b) 0 (tail b) in
  {| head := 0; tail := _size b; capacity := new_capacity;
     _size := _size b; data := new_data |}.

(** [Buffer::append] *)
Definition append (b : t) (src : list ascii) : t :=
  let len := Z.of_nat (length src) in
  let b1 :=
    if len + _size b >? capacity b then
      let new_capacity :=
        if len + _size b <? 1024 * 1024 then (len + _size b) * 2
        else len + _size b + 1024 * 1024 in
      resize b new_capacity
    else b in
  if tail b1 + len >? capacity b1 then
    let right := size_sub (capacity b1) (tail b1) in
    let left := size_sub len right in
    {| head := head b1; tail := left; capacity := capacity b1;
       _size := _size b1 + len;
       data := memcpy (memcpy (data b1) (tail b1) (of_list src) 0 right)
                      0 (of_list src) right left |}
  else
    {| head := head b1; tail := tail b1 + len; capacity := capacity b1;
       _size := _size b1 + len;
       data := memcpy (data b1) (tail b1) (of_list src) 0 len |}.

Definition append_u8 (b : t) (v : Z) : t := append b (le_bytes 1 v).
Definition append_u32 (b : t) (v : Z) : t := append b (le_bytes 4 v).
Definition append_i64 (b : t) (v : Z) : t := append b (le_bytes 8 v).

(** [Buffer::consume] *)
Definition consume (b : t) (len : Z) : t :=
  {| head := (head b + len) mod capacity b; tail := tail b;
     capacity := capacity b; _size := size_sub (_size b) len; data := data b |}.

(** [Buffer::peek].  [None]: nothing is written to [dst] (the early
    return); [Some bs]: the first [len] bytes of [dst] become [bs]. *)
Definition peek (b : t) (pos len : Z) : option (list ascii) :=
  if pos >=? _size b then None
  else
    let real_pos := (head b + pos) mod capacity b in
    if real_pos + len <=? capacity b then
      Some (read (data b) real_pos len)
    else
      let right := size_sub (capacity b) real_pos in
      let left := size_sub len right in
      Some (read (data b) real_pos right ++ read (data b) 0 left).

(** [Buffer::peek_u32]: the local [res] is returned as [peek] left it;
    [None] is the indeterminate value of a [res] that was never written. *)
Definition peek_u32 (b : t) (pos : Z) : option Z :=
  match peek b pos 4 with
  | Some bs => Some (le_decode bs)
  | None => None
  end.

(** [Buffer::get_continuous_data]: the pointer (a physical index, [None]
    for [nullptr]) and the length. *)
Definition get_continuous_data (b : t) (pos : Z) : option Z * Z :=
  if pos >=? _size b then (None, 0)
  else
    let real_pos := (head b + pos) mod capacity b in
    if real_pos + _size b <=? capacity b then
      (Some real_pos, size_sub (tail b) real_pos)
    else
      let right := size_sub (capacity b) real_pos in
      (Some real_pos, right).

(** [Buffer::copy_data] *)
Definition copy_data (b : t) (len : Z) : option (list ascii) := peek b 0 len.

(** [Buffer::operator[]]: the physical index of logical position [pos],
    and the byte there. *)
Definition index (b : t) (pos : Z) : Z := (head b + pos) mod capacity b.
Definition at_ (b : t) (pos : Z) : ascii := data b (index b pos).

(** [Buffer::insert]: overwrites in place from logical position [pos]. *)
Definition insert (b : t) (src : list ascii) (pos : Z) : t :=
  let len := Z.of_nat (length src) in
  if pos >=? _size b then b
  else
    let real_pos := (head b + pos) mod capacity b in
    let b1 :=
      if pos + len >? _size b then
        {| head := head b; tail := (head b + (pos + len)) mod capacity b;
           capacity := capacity b; _size := pos + len; data := data b |}
      else b in
    let b2 := if _size b1 >? capacity b1 then resize b1 (_size b1 * 2) else b1 in
    let real_pos2 :=
      if _size b1 >? capacity b1 then (head b2 + pos) mod capacity b2
      else real_pos in
    if real_pos2 + len >? capacity b2 then
      let first_part := size_sub (capacity b2) real_pos2 in
      let second_part := size_sub len first_part in
      {| head := head b2; tail := tail b2; capacity := capacity b2;
         _size := _size b2;
         data := memcpy (memcpy (data b2) real_pos2 (of_list src) 0 first_part)
                        0 (of_list src) first_part second_part |}
    else
      {| head := head b2; tail := tail b2; capacity := capacity b2;
         _size := _size b2;
         data := memcpy (data b2) real_pos2 (of_list src) 0 len |}.

(** [memcpy(&b[pos], src, len)] as server.cpp writes through the
    reference that [operator[]] returns: a plain copy from the physical
    index, which does not wrap. *)
Definition write_at (b : t) (pos : Z) (src : list ascii) : t :=
  {| head := head b; tail := tail b; capacity := capacity b; _size := _size b;
     data := memcpy (data b) (index b pos) (of_list src) 0
                    (Z.of_nat (length src)) |}.

(** The logical content: the bytes at positions [0 .. _size). *)
Definition contents (b : t) : list ascii :=
  map (fun i => at_ b (Z.of_nat i)) (seq 0 (Z.to_nat (_size b))).

(** The invariant the operations maintain. [tail] may be [capacity]
    where the specification's formula gives 0. *)
Record wf (b : t) : Prop := mk_wf {
  wf_head : 0 <= head b < capacity b;
  wf_size : 0 <= _size b <= capacity b;
  wf_tail : 0 <= tail b <= capacity b;
  wf_mod : tail b mod capacity b = (head b + _size b) mod capacity b
}.

(** The invariant as the specification words it. *)
Definition spec_inv (b : t) : Prop :=
  head b < capacity b /\
  tail b = (head b + _size b) mod capacity b /\
  _size b <= capacity b.

End Buffer.

(** ** The C library and the representation of [double]

    [strtoll], [strtod] and [isnan] belong to the C library, and the layout
    and order of a [double] to the platform: the server is embedded over
    any implementation of them. *)

Class Libc := {
  dbl : Type;
  (** [==] and [<] on [double] *)
  dbl_eqb : dbl -> dbl -> bool;
  dbl_ltb : dbl -> dbl -> bool;
  isnan : dbl -> bool;
  (** the eight bytes of a [double] object *)
  dbl_bytes : dbl -> list ascii;
  (** [strtoll(s, &endp, 10)] and [strtod(s, &endp)] on a C string: the
      value and [endp - s] *)
  strtoll : string -> Z * Z;
  strtod : string -> dbl * Z
}.

(** [std::string::c_str()] as a C function reads it: up to the first NUL. *)
Fixpoint c_str (s : string) : string :=
  match s with
  | EmptyString => EmptyString
  | String c s' => if Ascii.eqb c zero then EmptyString else String c (c_str s')
  end.

(** ** server.cpp: constants *)

Definition k_max_msg : Z := Z.shiftl 32 20.
Definition k_max_args : Z := 200 * 1000.
Definition k_idle_timeout_ms : Z := 5 * 1000.
Definition k_max_works : Z := 2000.
Definition k_large_container_size : Z := 1000.

Definition ERR_UNKNOWN : Z := 1.
Definition ERR_TOO_BIG : Z := 2.
Definition ERR_BAD_TYP : Z := 3.
Definition ERR_BAD_ARG : Z := 4.

Definition TAG_NIL : Z := 0.
Definition TAG_ERR : Z := 1.
Definition TAG_STR : Z := 2.
Definition TAG_INT : Z := 3.
Definition TAG_DBL : Z := 4.
Definition TAG_ARR : Z := 5.

Definition T_INIT : Z := 0.
Definition T_STR : Z := 1.
Definition T_ZSET : Z := 2.

(** ** server.cpp: request parsing *)

(** [read_u32]: the value and the advanced cursor. *)
Definition read_u32 (cur : list ascii) : option (Z * list ascii) :=
  if 4 >? Z.of_nat (length cur) then None
  else Some (le_decode (take 4 cur), drop 4 cur).

(** [read_str] *)
Definition read_str (cur : list ascii) (n : Z) : option (string * list ascii) :=
  if n >? Z.of_nat (length cur) then None
  else Some (str_of (take (Z.to_nat n) cur), drop (Z.to_nat n) cur).

(** The loop [while (out.size() < nstr)] of [parse_req], [n] strings
    still to read. *)
Fixpoint parse_strs (n : nat) (cur : list ascii) (out : list string)
  : option (list string * list ascii) :=
  match n with
  | O => Some (out, cur)
  | S n' =>
    match read_u32 cur with
    | None => None
    | Some (len, cur1) =>
      match read_str cur1 len with
      | None => None
      | Some (s, cur2) => parse_strs n' cur2 (out ++ [s])
      end
    end
  end.

(** [parse_req]: [None] is the return value -1. *)
Definition parse_req (data : list ascii) : option (list string) :=
  match read_u32 data with
  | None => None
  | Some (nstr, cur) =>
    if nstr >? k_max_args then None
    else
      match parse_strs (Z.to_nat nstr) cur [] with
      | None => None
      | Some (out, []) => Some out
      | Some (_, _ :: _) => None
      end
  end.

(** ** server.cpp: response serialization *)

Definition buf_append (buf : Buffer.t) (data : list ascii) : Buffer.t :=
  Buffer.append buf data.
Definition buf_append_u8 (buf : Buffer.t) (v : Z) : Buffer.t := Buffer.append_u8 buf v.
Definition buf_append_u32 (buf : Buffer.t) (v : Z) : Buffer.t := Buffer.append_u32 buf v.
Definition buf_append_i64 (buf : Buffer.t) (v : Z) : Buffer.t := Buffer.append_i64 buf v.

Definition out_nil (out : Buffer.t) : Buffer.t := buf_append_u8 out TAG_NIL.

Definition out_str (out : Buffer.t) (s : string) : Buffer.t :=
  buf_append (buf_append_u32 (buf_append_u8 out TAG_STR) (u32 (strlen s))) (bytes_of s).

Definition out_int (out : Buffer.t) (v : Z) : Buffer.t :=
  buf_append_i64 (buf_append_u8 out TAG_INT) v.

Definition out_err (out : Buffer.t) (code : Z) (msg : string) : Buffer.t :=
  buf_append
    (buf_append_u32 (buf_append_u32 (buf_append_u8 out TAG_ERR) code) (u32 (strlen msg)))
    (bytes_of msg).

Definition out_arr (out : Buffer.t) (n : Z) : Buffer.t :=
  buf_append_u32 (buf_append_u8 out TAG_ARR) n.

(** [out_begin_arr]: the buffer and the [ctx] position of the count. *)
Definition out_begin_arr (out : Buffer.t) : Buffer.t * Z :=
  let out1 := buf_append_u32 (buf_append_u8 out TAG_ARR) 0 in
  (out1, size_sub (Buffer.size out1) 4).

(** The condition of the [assert] in [out_end_arr]. *)
Definition out_end_arr_assert (out : Buffer.t) (ctx : Z) : bool :=
  Z_of_byte (Buffer.at_ out (size_sub ctx 1)) =? TAG_ARR.

(** [out_end_arr]: [memcpy(&out[ctx], &n, 4)]. *)
Definition out_end_arr (out : Buffer.t) (ctx : Z) (n : Z) : Buffer.t :=
  Buffer.write_at out ctx (le_bytes 4 n).

(** ** The containers of the collaborating headers *)

(** Modelled from the spec: heap.h is not among the sources.  The TTL heap
    is an array-backed min-heap of {deadline, back reference}; the Entry a
    back reference points into is named by its key.  [heap_update] sifts
    the item at [pos] toward its position and reports every write through
    a back reference, [( key, new index )], in the order made. *)
Record HeapItem := mkHeapItem { val : Z; ref : string }.

(** Modelled from the spec: the index arithmetic of heap.cpp, which is not
    among the sources. *)
Definition heap_parent (i : Z) : Z := (i + 1) / 2 - 1.
Definition heap_left (i : Z) : Z := i * 2 + 1.
Definition heap_right (i : Z) : Z := i * 2 + 2.

Definition heap_get (a : list HeapItem) (i : Z) : HeapItem :=
  nth (Z.to_nat i) a (mkHeapItem 0 EmptyString).
Definition heap_set (a : list HeapItem) (i : Z) (t : HeapItem) : list HeapItem :=
  <[Z.to_nat i := t]> a.

(** Modelled from the spec: the sift toward the root of heap.cpp, which is
    not among the sources.  The position halves at each step, so the length
    of the array is fuel enough. *)
Fixpoint heap_up (fuel : nat) (a : list HeapItem) (pos : Z) (t : HeapItem)
  : list HeapItem * list (string * Z) :=
  match fuel with
  | S f =>
    if (pos >? 0) && (val (heap_get a (heap_parent pos)) >? val t) then
      let p := heap_get a (heap_parent pos) in
      let '(a', ws) := heap_up f (heap_set a pos p) (heap_parent pos) t in
      (a', (ref p, pos) :: ws)
    else (heap_set a pos t, [(ref t, pos)])
  | O => (heap_set a pos t, [(ref t, pos)])
  end.

(** Modelled from the spec: the sift toward the leaves of heap.cpp, which
    is not among the sources. *)
Fixpoint heap_down (fuel : nat) (a : list HeapItem) (pos len : Z) (t : HeapItem)
  : list HeapItem * list (string * Z) :=
  match fuel with
  | S f =>
    let l := heap_left pos in
    let r := heap_right pos in
    let '(min_pos, min_val) :=
      if (l <? len) && (val (heap_get a l) <? val t) then (l, val (heap_get a l))
      else (pos, val t) in
    let min_pos :=
      if (r <? len) && (val (heap_get a r) <? min_val) then r else min_pos in
    if min_pos =? pos then (heap_set a pos t, [(ref t, pos)])
    else
      let c := heap_get a min_pos in
      let '(a', ws) := heap_down f (heap_set a pos c) min_pos len t in
      (a', (ref c, pos) :: ws)
  | O => (heap_set a pos t, [(ref t, pos)])
  end.

(** Modelled from the spec: [heap_update] of heap.h, which is not among
    the sources. *)
Definition heap_update (a : list HeapItem) (pos len : Z)
  : list HeapItem * list (string * Z) :=
  if (pos >? 0) && (val (heap_get a (heap_parent pos)) >? val (heap_get a pos)) then
    heap_up (length a) a pos (heap_get a pos)
  else heap_down (length a) a pos len (heap_get a pos).

(** [heap_delete] of server.cpp. *)
Definition heap_delete (a : list HeapItem) (pos : Z)
  : list HeapItem * list (string * Z) :=
  let a1 := heap_set a pos (List.last a (mkHeapItem 0 EmptyString)) in
  let a2 := removelast a1 in
  if pos <? Z.of_nat (length a2) then heap_update a2 pos (Z.of_nat (length a2))
  else (a2, []).

(** [heap_upsert] of server.cpp. *)
Definition heap_upsert (a : list HeapItem) (pos : Z) (t : HeapItem)
  : list HeapItem * list (string * Z) :=
  if pos <? Z.of_nat (length a) then
    let a1 := heap_set a pos t in
    heap_update a1 pos (Z.of_nat (length a1))
  else
    let a1 := a ++ [t] in
    heap_update a1 (Z.of_nat (length a)) (Z.of_nat (length a1)).

(** The result of a loop that may hit a failed [assert] and that the
    model runs on fuel. *)
Inductive outcome (A : Type) : Type :=
| Finished (a : A)
| AssertFailed
| OutOfFuel.
Arguments Finished {A} a.
Arguments AssertFailed {A}.
Arguments OutOfFuel {A}.

Global Instance outcome_fmap : FMap outcome := fun A B f r =>
  match r with
  | Finished a => Finished (f a)
  | AssertFailed => AssertFailed
  | OutOfFuel => OutOfFuel
  end.

(** The readings of the environment during one call. *)
Record Env := mkEnv {
  (** [get_monotonic_msec()] *)
  now_ms : Z;
  (** what [write] on the log descriptor takes: negative for an error,
      else the number of bytes it would accept at most *)
  write_accept : Z;
  (** the descriptors [open] returns for the rewrite file and for the
      renamed log, and whether [rename] succeeds *)
  open_temp_fd : Z;
  rename_ok : bool;
  reopen_fd : Z
}.

(** [write(fd, data, count)] *)
Definition sys_write (env : Env) (count : Z) : Z :=
  if write_accept env <? 0 then -1 else Z.min (write_accept env) count.

(** [struct Conn]; the descriptor names the connection. *)
Record Conn := mkConn {
  fd : Z;
  want_read : bool;
  want_write : bool;
  want_close : bool;
  incoming : Buffer.t;
  outgoing : Buffer.t;
  last_active_ms : Z
}.

Section Server.
Context {libc : Libc}.

(** Modelled from the spec: zset.h is not among the sources.  A sorted set
    is the list of its (name, score) pairs in ascending (score, name)
    order, names unique; a node is named by its rank. *)
Definition ZSet : Type := list (string * dbl).

(** Modelled from the spec: the order of zset.cpp, which is not among the
    sources: by score, then by name. *)
Definition zless (zl : string * dbl) (score : dbl) (name : string) : bool :=
  if negb (dbl_eqb (snd zl) score) then dbl_ltb (snd zl) score
  else String.ltb (fst zl) name.

(** Modelled from the spec: the place of a new pair in the order. *)
Fixpoint zset_place (z : string * dbl) (zs : ZSet) : ZSet :=
  match zs with
  | [] => [z]
  | z' :: zs' =>
    if zless z' (snd z) (fst z) then z' :: zset_place z zs' else z :: zs
  end.

(** Modelled from the spec: [zset_lookup] of zset.h, which is not among
    the sources. *)
Definition zset_lookup (zs : ZSet) (name : string) : option (string * dbl) :=
  List.find (fun z => String.eqb (fst z) name) zs.

(** Modelled from the spec: [zset_delete] of zset.h, which is not among
    the sources. *)
Definition zset_delete (zs : ZSet) (name : string) : ZSet :=
  List.filter (fun z => negb (String.eqb (fst z) name)) zs.

(** Modelled from the spec: [zset_insert] of zset.h, which is not among
    the sources; the result tells whether the name is new, and an existing
    name is moved to its new score. *)
Definition zset_insert (zs : ZSet) (name : string) (score : dbl) : bool * ZSet :=
  match zset_lookup zs name with
  | Some _ => (false, zset_place (name, score) (zset_delete zs name))
  | None => (true, zset_place (name, score) zs)
  end.

(** Modelled from the spec: [zset_seekge] of zset.h, which is not among
    the sources: the rank of the first pair that is not below
    (score, name). *)
Fixpoint zset_seekge (zs : ZSet) (score : dbl) (name : string) : option Z :=
  match zs with
  | [] => None
  | z :: zs' =>
    if zless z score name then
      match zset_seekge zs' score name with
      | Some i => Some (i + 1)
      | None => None
      end
    else Some 0
  end.

(** Modelled from the spec: [znode_offset] of zset.h, which is not among
    the sources: rank navigation; [None] is the null node. *)
Definition znode_offset (zs : ZSet) (node : option Z) (offset : Z) : option Z :=
  match node with
  | None => None
  | Some i =>
    if (0 <=? i + offset) && (i + offset <? Z.of_nat (length zs))
    then Some (i + offset) else None
  end.

(** The nodes from [node] on, in rank order: what repeated
    [znode_offset(znode, +1)] visits. *)
Definition znodes_from (zs : ZSet) (node : option Z) : list (string * dbl) :=
  match node with
  | None => []
  | Some i => drop (Z.to_nat i) zs
  end.

(** [struct Entry] *)
Record Entry := mkEntry {
  key : string;
  heap_idx : Z;
  type : Z;
  str : string;
  zset : ZSet
}.

Definition entry_new (type : Z) : Entry :=
  {| key := EmptyString; heap_idx := size_max; type := type;
     str := EmptyString; zset := [] |}.

Definition set_heap_idx (e : Entry) (i : Z) : Entry :=
  {| key := key e; heap_idx := i; type := type e; str := str e; zset := zset e |}.
Definition set_str (e : Entry) (s : string) : Entry :=
  {| key := key e; heap_idx := heap_idx e; type := type e; str := s; zset := zset e |}.
Definition set_zset (e : Entry) (zs : ZSet) : Entry :=
  {| key := key e; heap_idx := heap_idx e; type := type e; str := str e; zset := zs |}.
Definition set_key (e : Entry) (k : string) : Entry :=
  {| key := k; heap_idx := heap_idx e; type := type e; str := str e; zset := zset e |}.

(** [g_data].  Modelled from the spec: hashtable.h and list.h are not
    among the sources; the value store is a finite map from key to Entry,
    the idle list the list of connections from the least recently active.
    The file names, the rewrite progress counter and the thread pool,
    which only runs destructors, are left out. *)
Record State := mkState {
  db : gmap string Entry;
  conns : list Conn;
  heap : list HeapItem;
  aof_fd : Z;
  aof_last_save_ms : Z;
  aof_buf : Buffer.t;
  aof_enabled : bool;
  aof_rewrite_fd : Z;
  aof_rewriting : bool
}.

Definition set_db (st : State) (d : gmap string Entry) : State :=
  {| db := d; conns := conns st; heap := heap st; aof_fd := aof_fd st;
     aof_last_save_ms := aof_last_save_ms st; aof_buf := aof_buf st;
     aof_enabled := aof_enabled st; aof_rewrite_fd := aof_rewrite_fd st;
     aof_rewriting := aof_rewriting st |}.
Definition set_conns (st : State) (c : list Conn) : State :=
  {| db := db st; conns := c; heap := heap st; aof_fd := aof_fd st;
     aof_last_save_ms := aof_last_save_ms st; aof_buf := aof_buf st;
     aof_enabled := aof_enabled st; aof_rewrite_fd := aof_rewrite_fd st;
     aof_rewriting := aof_rewriting st |}.
Definition set_heap (st : State) (h : list HeapItem) : State :=
  {| db := db st; conns := conns st; heap := h; aof_fd := aof_fd st;
     aof_last_save_ms := aof_last_save_ms st; aof_buf := aof_buf st;
     aof_enabled := aof_enabled st; aof_rewrite_fd := aof_rewrite_fd st;
     aof_rewriting := aof_rewriting st |}.
Definition set_aof_fd (st : State) (v : Z) : State :=
  {| db := db st; conns := conns st; heap := heap st; aof_fd := v;
     aof_last_save_ms := aof_last_save_ms st; aof_buf := aof_buf st;
     aof_enabled := aof_enabled st; aof_rewrite_fd := aof_rewrite_fd st;
     aof_rewriting := aof_rewriting st |}.
Definition set_aof_last_save_ms (st : State) (v : Z) : State :=
  {| db := db st; conns := conns st; heap := heap st; aof_fd := aof_fd st;
     aof_last_save_ms := v; aof_buf := aof_buf st;
     aof_enabled := aof_enabled st; aof_rewrite_fd := aof_rewrite_fd st;
     aof_rewriting := aof_rewriting st |}.
Definition set_aof_buf (st : State) (b : Buffer.t) : State :=
  {| db := db st; conns := conns st; heap := heap st; aof_fd := aof_fd st;
     aof_last_save_ms := aof_last_save_ms st; aof_buf := b;
     aof_enabled := aof_enabled st; aof_rewrite_fd := aof_rewrite_fd st;
     aof_rewriting := aof_rewriting st |}.
Definition set_aof_enabled (st : State) (v : bool) : State :=
  {| db := db st; conns := conns st; heap := heap st; aof_fd := aof_fd st;
     aof_last_save_ms := aof_last_save_ms st; aof_buf := aof_buf st;
     aof_enabled := v; aof_rewrite_fd := aof_rewrite_fd st;
     aof_rewriting := aof_rewriting st |}.
Definition set_aof_rewrite_fd (st : State) (v : Z) : State :=
  {| db := db st; conns := conns st; heap := heap st; aof_fd := aof_fd st;
     aof_last_save_ms := aof_last_save_ms st; aof_buf := aof_buf st;
     aof_enabled := aof_enabled st; aof_rewrite_fd := v;
     aof_rewriting := aof_rewriting st |}.
Definition set_aof_rewriting (st : State) (v : bool) : State :=
  {| db := db st; conns := conns st; heap := heap st; aof_fd := aof_fd st;
     aof_last_save_ms := aof_last_save_ms st; aof_buf := aof_buf st;
     aof_enabled := aof_enabled st; aof_rewrite_fd := aof_rewrite_fd st;
     aof_rewriting := v |}.

(** The writes [*ref = pos] a heap operation made, applied to the Entries
    of the store and to an Entry held by pointer. *)
Definition write_refs (d : gmap string Entry) (ws : list (string * Z))
  : gmap string Entry :=
  fold_left (fun d w => alter (fun e => set_heap_idx e (snd w)) (fst w) d) ws d.

Definition write_refs_ent (e : Entry) (ws : list (string * Z)) : Entry :=
  fold_left (fun e w => if String.eqb (fst w) (key e) then set_heap_idx e (snd w) else e)
            ws e.

(** [entry_set_ttl]: the state and the Entry [ent] points to afterwards. *)
Definition entry_set_ttl (st : State) (ent : Entry) (ttl_ms : Z) (now : Z)
  : State * Entry :=
  if (ttl_ms <? 0) && negb (heap_idx ent =? size_max) then
    let '(a, ws) := heap_delete (heap st) (heap_idx ent) in
    (set_db (set_heap st a) (write_refs (db st) ws),
     set_heap_idx (write_refs_ent ent ws) size_max)
  else if ttl_ms >=? 0 then
    let expire_at := u64 (now + u64 ttl_ms) in
    let item := {| val := expire_at; ref := key ent |} in
    let '(a, ws) := heap_upsert (heap st) (heap_idx ent) item in
    (set_db (set_heap st a) (write_refs (db st) ws), write_refs_ent ent ws)
  else (st, ent).

(** [entry_del]: [ent] has left the store; its heap item is removed.  The
    destructor, inline or on the thread pool, frees memory only. *)
Definition entry_del (st : State) (ent : Entry) : State :=
  fst (entry_set_ttl st ent (-1) 0).

Definition arg (cmd : list string) (i : nat) : string := nth i cmd EmptyString.

(** The handlers read [cmd] and return the state and [out].  They swap
    arguments out of [cmd]; no caller reads [cmd] afterwards. *)
Definition do_get (st : State) (cmd : list string) (out : Buffer.t) : Buffer.t :=
  match db st !! arg cmd 1 with
  | None => out_nil out
  | Some ent =>
    if negb (type ent =? T_STR) then out_err out ERR_BAD_TYP "not a string value"
    else out_str out (str ent)
  end.

Definition do_set (st : State) (cmd : list string) (out : Buffer.t)
  : State * Buffer.t :=
  match db st !! arg cmd 1 with
  | Some ent =>
    if negb (type ent =? T_STR) then
      (st, out_err out ERR_BAD_TYP "a non-string value exists")
    else
      (set_db st (<[arg cmd 1 := set_str ent (arg cmd 2)]> (db st)), out_nil out)
  | None =>
    let ent := set_str (set_key (entry_new T_STR) (arg cmd 1)) (arg cmd 2) in
    (set_db st (<[arg cmd 1 := ent]> (db st)), out_nil out)
  end.

Definition do_del (st : State) (cmd : list string) (out : Buffer.t)
  : State * Buffer.t :=
  match db st !! arg cmd 1 with
  | Some ent =>
    (entry_del (set_db st (delete (arg cmd 1) (db st))) ent, out_int out 1)
  | None => (st, out_int out 0)
  end.

(** [str2int] *)
Definition str2int (s : string) : option Z :=
  let '(v, n) := strtoll (c_str s) in
  if n =? strlen s then Some v else None.

(** [str2dbl] *)
Definition str2dbl (s : string) : option dbl :=
  let '(v, n) := strtod (c_str s) in
  if (n =? strlen s) && negb (isnan v) then Some v else None.

Definition do_expire (st : State) (env : Env) (cmd : list string) (out : Buffer.t)
  : State * Buffer.t :=
  match str2int (arg cmd 2) with
  | None => (st, out_err out ERR_BAD_ARG "expect int64")
  | Some ttl_ms =>
    match db st !! arg cmd 1 with
    | Some ent =>
      let '(st1, ent1) := entry_set_ttl st ent ttl_ms (now_ms env) in
      (set_db st1 (<[arg cmd 1 := ent1]> (db st1)), out_int out 1)
    | None => (st, out_int out 0)
    end
  end.

Definition do_ttl (st : State) (env : Env) (cmd : list string) (out : Buffer.t)
  : Buffer.t :=
  match db st !! arg cmd 1 with
  | None => out_int out (-2)
  | Some ent =>
    if heap_idx ent =? size_max then out_int out (-1)
    else
      let expire_at := val (heap_get (heap st) (heap_idx ent)) in
      out_int out (if expire_at >? now_ms env then u64 (expire_at - now_ms env) else 0)
  end.

Definition do_keys (st : State) (out : Buffer.t) : Buffer.t :=
  fold_left (fun o kv => out_str o (key (snd kv))) (map_to_list (db st))
            (out_arr out (u32 (Z.of_nat (size (db st))))).

Definition do_zadd (st : State) (cmd : list string) (out : Buffer.t)
  : State * Buffer.t :=
  match str2dbl (arg cmd 2) with
  | None => (st, out_err out ERR_BAD_ARG "expect float")
  | Some score =>
    match db st !! arg cmd 1 with
    | None =>
      let ent := set_key (entry_new T_ZSET) (arg cmd 1) in
      let '(added, zs) := zset_insert (zset ent) (arg cmd 3) score in
      (set_db st (<[arg cmd 1 := set_zset ent zs]> (db st)),
       out_int out (if added then 1 else 0))
    | Some ent =>
      if negb (type ent =? T_ZSET) then (st, out_err out ERR_BAD_TYP "expect zset")
      else
        let '(added, zs) := zset_insert (zset ent) (arg cmd 3) score in
        (set_db st (<[arg cmd 1 := set_zset ent zs]> (db st)),
         out_int out (if added then 1 else 0))
    end
  end.

(** What [expect_zset] returns: [NULL], the shared empty set, or the set
    of an Entry. *)
Inductive zset_ptr : Type :=
| ZNull
| ZEmpty
| ZOf (ent : Entry).

Definition expect_zset (st : State) (s : string) : zset_ptr :=
  match db st !! s with
  | None => ZEmpty
  | Some ent => if type ent =? T_ZSET then ZOf ent else ZNull
  end.

Definition zset_at (p : zset_ptr) : ZSet :=
  match p with
  | ZOf ent => zset ent
  | _ => []
  end.

Definition do_zrem (st : State) (cmd : list string) (out : Buffer.t)
  : State * Buffer.t :=
  match expect_zset st (arg cmd 1) with
  | ZNull => (st, out_err out ERR_BAD_TYP "expect zset")
  | ZEmpty => (st, out_int out 0)
  | ZOf ent =>
    match zset_lookup (zset ent) (arg cmd 2) with
    | Some _ =>
      (set_db st (<[arg cmd 1 := set_zset ent (zset_delete (zset ent) (arg cmd 2))]> (db st)),
       out_int out 1)
    | None => (st, out_int out 0)
    end
  end.

Definition out_dbl (out : Buffer.t) (v : dbl) : Buffer.t :=
  buf_append (buf_append_u8 out TAG_DBL) (dbl_bytes v).

Definition do_zscore (st : State) (cmd : list string) (out : Buffer.t) : Buffer.t :=
  match expect_zset st (arg cmd 1) with
  | ZNull => out_err out ERR_BAD_TYP "expect zset"
  | p =>
    match zset_lookup (zset_at p) (arg cmd 2) with
    | Some z => out_dbl out (snd z)
    | None => out_nil out
    end
  end.

(** The output loop of [do_zquery] over the nodes still ahead: [n] counts
    the array elements written, two for each pair. *)
Fixpoint zquery_emit (nodes : list (string * dbl)) (n limit : Z) (out : Buffer.t)
  : Buffer.t * Z :=
  match nodes with
  | [] => (out, n)
  | z :: rest =>
    if n <? limit then
      zquery_emit rest (n + 2) limit (out_dbl (out_str out (fst z)) (snd z))
    else (out, n)
  end.

Definition do_zquery (st : State) (cmd : list string) (out : Buffer.t) : Buffer.t :=
  match str2dbl (arg cmd 2) with
  | None => out_err out ERR_BAD_ARG "expect fp number"
  | Some score =>
    let name := arg cmd 3 in
    match str2int (arg cmd 4), str2int (arg cmd 5) with
    | Some offset, Some limit =>
      match expect_zset st (arg cmd 1) with
      | ZNull => out_err out ERR_BAD_TYP "expect zset"
      | p =>
        let zs := zset_at p in
        if limit <=? 0 then out_arr out 0
        else
          let znode := znode_offset zs (zset_seekge zs score name) offset in
          let '(out1, ctx) := out_begin_arr out in
          let '(out2, n) := zquery_emit (znodes_from zs znode) 0 limit out1 in
          out_end_arr out2 ctx (u32 n)
      end
    | _, _ => out_err out ERR_BAD_ARG "expect int"
    end
  end.

(** [aof_write_command] *)
Definition aof_write_command (buf : Buffer.t) (cmd : list string) : Buffer.t :=
  match cmd with
  | [] => buf
  | _ =>
    fold_left (fun b s => buf_append (buf_append_u32 b (u32 (strlen s))) (bytes_of s))
              cmd (buf_append_u32 buf (u32 (Z.of_nat (length cmd))))
  end.

(** [aof_flush_and_sync] *)
Definition aof_flush_and_sync (st : State) (env : Env) : State :=
  if negb (aof_enabled st) || Buffer.empty (aof_buf st) || (aof_fd st <? 0) then st
  else
    let '(_, data_size) := Buffer.get_continuous_data (aof_buf st) 0 in
    let rv := sys_write env data_size in
    if rv <? 0 then st
    else
      let st1 := set_aof_buf st (Buffer.consume (aof_buf st) rv) in
      if u64 (now_ms env - aof_last_save_ms st1) >? 1000
      then set_aof_last_save_ms st1 (now_ms env)
      else st1.

(** [aof_rewrite_finish], after [aof_rewrite_do] has written the store to
    the rewrite file; the content of the files is not part of the state. *)
Definition aof_rewrite_finish (st : State) (env : Env) : State :=
  if negb (aof_rewriting st) then st
  else
    let st1 := if aof_rewrite_fd st >=? 0 then set_aof_rewrite_fd st (-1) else st in
    let st2 := aof_flush_and_sync st1 env in
    if negb (rename_ok env) then set_aof_rewriting st2 false
    else
      let st3 := set_aof_fd st2 (reopen_fd env) in
      let st4 := if aof_fd st3 <? 0 then set_aof_enabled st3 false else st3 in
      set_aof_rewriting st4 false.

(** [aof_rewrite]: the state and the return value. *)
Definition aof_rewrite (st : State) (env : Env) : State * Z :=
  if aof_rewriting st then (st, -1)
  else
    let st1 := set_aof_rewrite_fd (set_aof_rewriting st true) (open_temp_fd env) in
    if aof_rewrite_fd st1 <? 0 then (set_aof_rewriting st1 false, -1)
    else (aof_rewrite_finish st1 env, 0).

Definition do_aof_rewrite (st : State) (env : Env) (out : Buffer.t)
  : State * Buffer.t :=
  if negb (aof_enabled st) then (st, out_err out ERR_BAD_ARG "AOF is not enabled")
  else if aof_rewriting st then
    (st, out_err out ERR_BAD_ARG "AOF rewrite already in progress")
  else
    let '(st1, rv) := aof_rewrite st env in
    if rv <? 0 then (st1, out_err out ERR_UNKNOWN "AOF rewrite failed")
    else (st1, out_int out 1).

Definition cmd_is (cmd : list string) (n : nat) (name : string) : bool :=
  (length cmd =? n)%nat && String.eqb (arg cmd 0) name.

(** The shape of the five mutating branches of [do_request]. *)
Definition logged (st : State) (env : Env) (cmd : list string) (out : Buffer.t)
    (handler : State -> list string -> Buffer.t -> State * Buffer.t)
  : State * Buffer.t :=
  let st1 :=
    if aof_enabled st then set_aof_buf st (aof_write_command (aof_buf st) cmd)
    else st in
  let '(st2, out1) := handler st1 cmd out in
  let st3 := if aof_enabled st2 then aof_flush_and_sync st2 env else st2 in
  (st3, out1).

(** [do_request] *)
Definition do_request (st : State) (env : Env) (cmd : list string) (out : Buffer.t)
  : State * Buffer.t :=
  if cmd_is cmd 2 "get" then (st, do_get st cmd out)
  else if cmd_is cmd 3 "set" then logged st env cmd out do_set
  else if cmd_is cmd 2 "del" then logged st env cmd out do_del
  else if cmd_is cmd 3 "pexpire" then
    logged st env cmd out (fun s c o => do_expire s env c o)
  else if cmd_is cmd 2 "pttl" then (st, do_ttl st env cmd out)
  else if cmd_is cmd 1 "keys" then (st, do_keys st out)
  else if cmd_is cmd 4 "zadd" then logged st env cmd out do_zadd
  else if cmd_is cmd 3 "zrem" then logged st env cmd out do_zrem
  else if cmd_is cmd 3 "zscore" then (st, do_zscore st cmd out)
  else if cmd_is cmd 6 "zquery" then (st, do_zquery st cmd out)
  else if cmd_is cmd 1 "bgrewriteaof" then do_aof_rewrite st env out
  else (st, out_err out ERR_UNKNOWN "unknown command.").

(** ** Replay of the log *)

(** [fread(&v, 4, 1, fp)]: the item, if four bytes were left, and the rest
    of the file; a short read leaves the stream at its end. *)
Definition fread_u32 (f : list ascii) : option Z * list ascii :=
  if Z.of_nat (length f) <? 4 then (None, [])
  else (Some (le_decode (take 4 f)), drop 4 f).

(** [fread(&s[0], 1, len, fp)] into a string of [len] bytes. *)
Definition fread_str (f : list ascii) (len : Z) : option string * list ascii :=
  if Z.of_nat (length f) <? len then (None, [])
  else (Some (str_of (take (Z.to_nat len) f)), drop (Z.to_nat len) f).

(** The [for] loop of [load_aof_file], [n] strings still to read: a
    failed read leaves it by [break], with the strings read so far. *)
Fixpoint aof_read_strs (n : nat) (f : list ascii) (cmd : list string)
  : list string * list ascii :=
  match n with
  | O => (cmd, f)
  | S n' =>
    match fread_u32 f with
    | (None, f1) => (cmd, f1)
    | (Some len, f1) =>
      match fread_str f1 len with
      | (None, f2) => (cmd, f2)
      | (Some s, f2) => aof_read_strs n' f2 (cmd ++ [s])
      end
    end
  end.

(** The [while (true)] loop of [load_aof_file]; [envs i] is the
    environment of the [i]-th dispatched command. *)
Fixpoint aof_replay (fuel : nat) (st : State) (envs : nat -> Env) (i : nat)
    (f : list ascii) : outcome State :=
  match fuel with
  | O => OutOfFuel
  | S fuel' =>
    match fread_u32 f with
    | (None, _) => Finished st
    | (Some nstr, f1) =>
      if nstr >? k_max_args then Finished st
      else
        let '(cmd, f2) := aof_read_strs (Z.to_nat nstr) f1 [] in
        let '(st1, _) := do_request st (envs i) cmd Buffer.default in
        aof_replay fuel' st1 envs (S i) f2
    end
  end.

(** [load_aof_file]; [file] is the content of the log, [None] when
    [fopen] fails. *)
Definition load_aof_file (st : State) (envs : nat -> Env) (file : option (list ascii))
  : outcome State :=
  if negb (aof_enabled st) then Finished st
  else
    let aof_was_enabled := aof_enabled st in
    let st1 := set_aof_enabled st false in
    match file with
    | None => Finished st1
    | Some f =>
      match aof_replay (S (length f)) st1 envs 0 f with
      | Finished st2 => Finished (set_aof_enabled st2 aof_was_enabled)
      | r => r
      end
    end.

(** ** Responses and requests of a connection *)

(** [response_begin]: the buffer and the header position. *)
Definition response_begin (out : Buffer.t) : Buffer.t * Z :=
  (buf_append_u32 out 0, Buffer.size out).

Definition response_size (out : Buffer.t) (header : Z) : Z :=
  size_sub (size_sub (Buffer.size out) header) 4.

Definition response_end (out : Buffer.t) (header : Z) : Buffer.t :=
  let msg_size := response_size out header in
  let out1 :=
    if msg_size >? k_max_msg then
      out_err (Buffer.resize out (header + 4)) ERR_TOO_BIG "response is too big."
    else out in
  let msg_size1 :=
    if msg_size >? k_max_msg then response_size out1 header else msg_size in
  Buffer.insert out1 (le_bytes 4 (u32 msg_size1)) header.

Definition set_want_close (c : Conn) (v : bool) : Conn :=
  {| fd := fd c; want_read := want_read c; want_write := want_write c;
     want_close := v; incoming := incoming c; outgoing := outgoing c;
     last_active_ms := last_active_ms c |}.
Definition set_buffers (c : Conn) (i o : Buffer.t) : Conn :=
  {| fd := fd c; want_read := want_read c; want_write := want_write c;
     want_close := want_close c; incoming := i; outgoing := o;
     last_active_ms := last_active_ms c |}.

(** [try_one_request].  [None]: the function has read an indeterminate
    value (a [len] or a request byte that [peek] never wrote). *)
Definition try_one_request (st : State) (env : Env) (conn : Conn)
  : option (bool * Conn * State) :=
  if Buffer.size (incoming conn) <? 4 then Some (false, conn, st)
  else
    match Buffer.peek_u32 (incoming conn) 0 with
    | None => None
    | Some len =>
      if len >? k_max_msg then Some (false, set_want_close conn true, st)
      else if u32 (4 + len) >? Buffer.size (incoming conn) then Some (false, conn, st)
      else
        let request :=
          match Buffer.peek (incoming conn) 4 len with
          | Some bs => Some bs
          | None => if len =? 0 then Some [] else None
          end in
        match request with
        | None => None
        | Some req =>
          match parse_req req with
          | None => Some (false, set_want_close conn true, st)
          | Some cmd =>
            let '(out1, header_pos) := response_begin (outgoing conn) in
            let '(st1, out2) := do_request st env cmd out1 in
            let out3 := response_end out2 header_pos in
            Some (true,
                  set_buffers conn (Buffer.consume (incoming conn) (u32 (4 + len))) out3,
                  st1)
          end
        end
    end.

(** ** Timers *)

(** The idle loop of [process_timers]: [conn_destroy] drops the first
    connection of the idle list. *)
Fixpoint idle_loop (cs : list Conn) (now : Z) : list Conn :=
  match cs with
  | [] => []
  | conn :: rest =>
    let next_ms := u64 (last_active_ms conn + k_idle_timeout_ms) in
    if next_ms >=? now then cs else idle_loop rest now
  end.

(** The TTL loop of [process_timers]; [nworks] is the counter before the
    iteration. *)
Fixpoint ttl_loop (fuel : nat) (st : State) (now : Z) (nworks : Z) : outcome State :=
  match fuel with
  | O => OutOfFuel
  | S fuel' =>
    match heap st with
    | [] => Finished st
    | top :: _ =>
      if val top <? now then
        match db st !! ref top with
        | None => AssertFailed
        | Some ent =>
          let st1 := entry_del (set_db st (delete (ref top) (db st))) ent in
          if nworks >=? k_max_works then Finished st1
          else ttl_loop fuel' st1 now (nworks + 1)
        end
      else Finished st
    end
  end.

Definition process_timers (st : State) (env : Env) : outcome State :=
  let st1 := set_conns st (idle_loop (conns st) (now_ms env)) in
  ttl_loop (2 * length (heap st1) + 2) st1 (now_ms env) 0.

End Server.

(** ** A C library for closed examples

    Decimal integer literals only: [strtoll] as the C standard describes
    it for base 10, and a [strtod] that reads the same literals.  A
    [double] is then an integer, of magnitude below 2^53, and its bytes are
    those of the binary64 number of that value. *)

Definition isspace (c : ascii) : bool :=
  let n := Z_of_byte c in (n =? 32) || ((9 <=? n) && (n <=? 13)).
Definition isdigit (c : ascii) : bool :=
  let n := Z_of_byte c in (48 <=? n) && (n <=? 57).

Fixpoint skip_space (s : string) (k : Z) : string * Z :=
  match s with
  | String c s' => if isspace c then skip_space s' (k + 1) else (s, k)
  | EmptyString => (s, k)
  end.

Fixpoint read_digits (s : string) (acc k : Z) : Z * Z :=
  match s with
  | String c s' =>
    if isdigit c then read_digits s' (acc * 10 + (Z_of_byte c - 48)) (k + 1)
    else (acc, k)
  | EmptyString => (acc, k)
  end.

Definition dec_strtoll (s : string) : Z * Z :=
  let '(s1, k1) := skip_space s 0 in
  let '(neg, s2, k2) :=
    match s1 with
    | String "-"%char s' => (true, s', 1)
    | String "+"%char s' => (false, s', 1)
    | _ => (false, s1, 0)
    end in
  let '(v, nd) := read_digits s2 0 0 in
  if nd =? 0 then (0, 0)
  else
    let v1 := if neg then - v else v in
    (Z.max (- 2 ^ 63) (Z.min (2 ^ 63 - 1) v1), k1 + k2 + nd).

Definition binary64_of_int (z : Z) : Z :=
  if z =? 0 then 0
  else
    let a := Z.abs z in
    let e := Z.log2 a in
    let m := if e <=? 52 then a * 2 ^ (52 - e) else a / 2 ^ (e - 52) in
    (if z <? 0 then 2 ^ 63 else 0) + (e + 1023) * 2 ^ 52 + (m - 2 ^ 52).

Definition int_libc : Libc :=
  {| dbl := Z;
     dbl_eqb := Z.eqb;
     dbl_ltb := Z.ltb;
     isnan := fun _ => false;
     dbl_bytes := fun z => le_bytes 8 (binary64_of_int z);
     strtoll := dec_strtoll;
     strtod := dec_strtoll |}.

(** The global state at start-up, and a quiet environment in which
    [write] would block. *)
Definition init_state {libc : Libc} : State :=
  {| db := ∅; conns := []; heap := []; aof_fd := 3; aof_last_save_ms := 0;
     aof_buf := Buffer.default; aof_enabled := true; aof_rewrite_fd := -1;
     aof_rewriting := false |}.

Definition env_at (now : Z) : Env :=
  {| now_ms := now; write_accept := -1; open_temp_fd := 4; rename_ok := true;
     reopen_fd := 3 |}.

(** The frame of a command in the log: [u32 nstr | (u32 len | bytes)^nstr]. *)
Definition aof_frame (cmd : list string) : list ascii :=
  match cmd with
  | [] => []
  | _ =>
    le_bytes 4 (u32 (Z.of_nat (length cmd)))
    ++ concat (map (fun s => le_bytes 4 (u32 (strlen s)) ++ bytes_of s) cmd)
  end.

(** The serialized response values. *)
Definition enc_nil : list ascii := le_bytes 1 TAG_NIL.
Definition enc_err (code : Z) (msg : string) : list ascii :=
  le_bytes 1 TAG_ERR ++ le_bytes 4 code ++ le_bytes 4 (u32 (strlen msg)) ++ bytes_of msg.
Definition enc_str (s : string) : list ascii :=
  le_bytes 1 TAG_STR ++ le_bytes 4 (u32 (strlen s)) ++ bytes_of s.
Definition enc_int (v : Z) : list ascii := le_bytes 1 TAG_INT ++ le_bytes 8 v.
Definition enc_dbl {libc : Libc} (v : dbl) : list ascii :=
  le_bytes 1 TAG_DBL ++ dbl_bytes v.
Definition enc_arr (n : Z) : list ascii := le_bytes 1 TAG_ARR ++ le_bytes 4 n.
(** ** Reachable buffer states *)

(** The states a buffer takes from its construction on, each operation
    being called within its contract: [consume] of no more than the
    content, [resize] to a capacity that holds the content, [insert] at
    a position of the content. *)
Inductive reachable : Buffer.t -> Prop :=
| reach_new (c : Z) : 0 < c -> reachable (Buffer.new c)
| reach_append (b : Buffer.t) (src : list ascii) :
    reachable b -> reachable (Buffer.append b src)
| reach_consume (b : Buffer.t) (n : Z) :
    reachable b -> 0 <= n <= Buffer._size b -> reachable (Buffer.consume b n)
| reach_resize (b : Buffer.t) (n : Z) :
    reachable b -> 0 < n -> Buffer._size b <= n -> reachable (Buffer.resize b n)
| reach_insert (b : Buffer.t) (src : list ascii) (pos : Z) :
    reachable b -> 0 <= pos < Buffer._size b -> reachable (Buffer.insert b src pos).

(** A buffer used as a queue, by [append] and [consume] only, also keeps
    [tail] off 0 while it holds bytes. *)
Definition fifo (b : Buffer.t) : Prop :=
  Buffer.wf b /\ (0 < Buffer._size b -> 0 < Buffer.tail b).

(** A response of 32 MiB + 1 bytes behind its reserved header: what
    [do_keys] leaves in [out] for a store whose keys take that much. *)
Definition oversized_out : Buffer.t :=
  {| Buffer.head := 0; Buffer.tail := 33554437; Buffer.capacity := 34603008;
     Buffer._size := 33554437; Buffer.data := fun _ => "a"%char |}.

(** The commands [do_request] logs. *)
Definition mutating (cmd : list string) : bool :=
  cmd_is cmd 3 "set" || cmd_is cmd 2 "del" || cmd_is cmd 3 "pexpire"
  || cmd_is cmd 4 "zadd" || cmd_is cmd 3 "zrem".

(** The position [p] of a four-byte field that lies in one piece in the
    array of [b]. *)
Definition in_place (b : Buffer.t) (p : Z) : Prop :=
  Buffer.index b p + 4 <= Buffer.capacity b.

(** The count field that [out_begin_arr] is about to reserve in [out]
    will lie in one piece: the header makes the buffer grow, which moves
    the content to the front, or the field does not reach the end of the
    array. *)
Definition arr_count_in_place (out : Buffer.t) : Prop :=
  Buffer._size out + 5 > Buffer.capacity out \/ in_place out (Buffer._size out + 1).

(** A store of [n] keys, each set and then given a TTL of 0 ms at time 0,
    with the log switched off. *)
Definition key_of (n : nat) : string :=
  String (ascii_of_nat (n / 256)) (String (ascii_of_nat (n mod 256)) EmptyString).

Definition expiring_store (n : nat) : @State int_libc :=
  fold_left
    (fun st i =>
       let st1 := fst (do_request st (env_at 0) ["set"; key_of i; "v"]%string Buffer.default) in
       fst (do_request st1 (env_at 0) ["pexpire"; key_of i; "0"]%string Buffer.default))
    (seq 0 n) (set_aof_enabled init_state false).

(** A log of one complete record, [set k v], and the same log followed by
    a record that announces three strings, [del], [k] and a third one of
    five bytes, of which the file has two. *)
Definition log_complete : list ascii := aof_frame ["set"; "k"; "v"]%string.
Definition log_truncated : list ascii :=
  log_complete
  ++ le_bytes 4 3
  ++ le_bytes 4 3 ++ bytes_of "del"
  ++ le_bytes 4 1 ++ bytes_of "k"
  ++ le_bytes 4 5 ++ bytes_of "ab".

(** [st'] has the log fields of [st]. *)
Definition same_log {libc : Libc} (st st' : State) : Prop :=
  aof_buf st' = aof_buf st /\ aof_enabled st' = aof_enabled st /\
  aof_fd st' = aof_fd st /\ aof_last_save_ms st' = aof_last_save_ms st.

(** A store in which [z] is a sorted set of one member, the log buffer
    still empty. *)
Definition zset_store : @State int_libc :=
  set_aof_buf
    (fst (do_request init_state (env_at 0) ["zadd"; "z"; "1"; "a"]%string Buffer.default))
    Buffer.default.

(** The sorted set of scenario 4 of the specification: [b] with score 1
    and [a] with score 2. *)
Definition scenario4_store : @State int_libc :=
  let run st cmd := fst (do_request st (env_at 0) cmd Buffer.default) in
  run (run (run init_state ["zadd"; "z"; "1"; "a"]%string)
           ["zadd"; "z"; "1"; "b"]%string)
      ["zadd"; "z"; "2"; "a"]%string.

(** A store in which [k] is a string. *)
Definition string_store : @State int_libc :=
  fst (do_request init_state (env_at 0) ["set"; "k"; "v"]%string Buffer.default).

(** [k] is set, given 50 ms to live at time 0, and set again at time 10. *)
Definition ttl_store : @State int_libc :=
  let st1 := string_store in
  let st2 := fst (do_request st1 (env_at 0) ["pexpire"; "k"; "50"]%string Buffer.default) in
  fst (do_request st2 (env_at 10) ["set"; "k"; "w"]%string Buffer.default).

(** The rows of a store of the example library: key, [heap_idx], type,
    string and sorted set of every Entry. *)
Definition store_view (st : @State int_libc)
  : list (string * Z * Z * string * list (string * Z)) :=
  map (fun kv : string * @Entry int_libc =>
         (fst kv, heap_idx (snd kv), type (snd kv), str (snd kv), zset (snd kv)))
      (map_to_list (db st)).

(** ** The reply of zquery *)

(** The pairs of [zs] from the first one that is not below (score, name). *)
Fixpoint seek_ge {libc : Libc} (zs : ZSet) (score : dbl) (name : string) : ZSet :=
  match zs with
  | [] => []
  | z :: zs' => if zless z score name then seek_ge zs' score name else zs
  end.

(** The pairs ahead of the node at which [do_zquery] starts to write. *)
Definition zquery_from {libc : Libc} (zs : ZSet) (score : dbl) (name : string)
    (offset : Z) : ZSet :=
  znodes_from zs (znode_offset zs (zset_seekge zs score name) offset).

(** [key] holds the sorted set [zs]: the set of its Entry, or the empty
    set when there is no Entry. *)
Definition holds_zset {libc : Libc} (st : State) (k : string) (zs : ZSet) : Prop :=
  (db st !! k = None /\ zs = [])
  \/ (exists ent, db st !! k = Some ent /\ type ent = T_ZSET /\ zs = zset ent).

Definition enc_pair {libc : Libc} (z : string * dbl) : list ascii :=
  enc_str (fst z) ++ enc_dbl (snd z).

(** A store in which [z] is a sorted set of [n] members of score 0, and an
    output buffer of capacity 6000 that has been filled and drained up to
    two bytes before the end of its array. *)
Definition members_store (n : nat) : @State int_libc :=
  fold_left
    (fun st i =>
       fst (do_request st (env_at 0) ["zadd"; "z"; "0"; key_of i]%string Buffer.default))
    (seq 0 n) (set_aof_enabled init_state false).

Definition drained_out : Buffer.t :=
  let b1 := Buffer.consume (Buffer.append Buffer.default (repeat "x"%char 3000)) 3000 in
  Buffer.consume (Buffer.append b1 (repeat "x"%char 2998)) 2998.

(** ** The order of a sorted set *)

(** [a] is below [b] in the (score, name) order, and [b] is not below
    [a]. *)
Definition zlt {libc : Libc} (a b : string * dbl) : bool :=
  zless a (snd b) (fst b).
Definition zle {libc : Libc} (a b : string * dbl) : Prop :=
  zlt b a = false.

(** The list is in ascending (score, name) order and holds no NaN. *)
Definition zsorted {libc : Libc} (zs : ZSet) : Prop :=
  StronglySorted zle zs /\ Forall (fun z => isnan (snd z) = false) zs.

(** The laws of [<] and [==] on the doubles that are not NaN. *)
Class DblOrder (libc : Libc) : Prop := {
  dbl_eqb_ltb : forall a b : dbl,
    isnan a = false -> isnan b = false ->
    dbl_eqb a b = negb (dbl_ltb a b || dbl_ltb b a);
  dbl_ltb_asym : forall a b : dbl,
    isnan a = false -> isnan b = false ->
    dbl_ltb a b = true -> dbl_ltb b a = false;
  dbl_ltb_negtrans : forall a b c : dbl,
    isnan a = false -> isnan b = false -> isnan c = false ->
    dbl_ltb a b = false -> dbl_ltb b c = false -> dbl_ltb a c = false
}.

(** Every sorted set of the store is in order. *)
Definition sorted_map {libc : Libc} (d : gmap string Entry) : Prop :=
  forall k e, d !! k = Some e -> zsorted (zset e).
Definition db_sorted {libc : Libc} (st : State) : Prop := sorted_map (db st).
(** * Arithmetic and byte lemmas *)

Lemma mod_wrap (c x : Z) :
  0 < c -> 0 <= x < 2 * c -> x mod c = if x <? c then x else x - c.
Proof.
  intros Hc Hx. destruct (Z.ltb_spec x c).
  - apply Z.mod_small; lia.
  - symmetry. apply (Z.mod_unique x c 1); lia.
Qed.

Lemma size_sub_le (a b : Z) : b <= a -> size_sub a b = a - b.
Proof. intros H. unfold size_sub. destruct (Z.ltb_spec a b); lia. Qed.

Lemma Z_of_byte_range (a : ascii) : 0 <= Z_of_byte a < 256.
Proof.
  unfold Z_of_byte. pose proof (N_ascii_bounded a). lia.
Qed.

Lemma Z_of_byte_of_Z (z : Z) : Z_of_byte (byte_of_Z z) = z mod 256.
Proof.
  unfold Z_of_byte, byte_of_Z.
  assert (0 <= z mod 256 < 256) by (apply Z.mod_pos_bound; lia).
  rewrite N_ascii_embedding by lia. lia.
Qed.

Lemma byte_of_Z_of_byte (a : ascii) : byte_of_Z (Z_of_byte a) = a.
Proof.
  unfold byte_of_Z. pose proof (Z_of_byte_range a).
  rewrite Z.mod_small by lia. unfold Z_of_byte.
  rewrite N2Z.id. apply ascii_N_embedding.
Qed.

Lemma length_le_bytes (n : nat) (z : Z) : length (le_bytes n z) = n.
Proof. revert z. induction n; intros; simpl; auto. Qed.

Lemma le_decode_le_bytes (n : nat) (z : Z) :
  le_decode (le_bytes n z) = z mod 256 ^ Z.of_nat n.
Proof.
  revert z. induction n as [|n IH]; intros z.
  - simpl. now rewrite Z.mod_1_r.
  - cbn [le_bytes le_decode]. rewrite IH, Z_of_byte_of_Z.
    rewrite Nat2Z.inj_succ, Z.pow_succ_r by lia.
    rewrite Z.rem_mul_r by lia. lia.
Qed.

Lemma le_decode_u32 (z : Z) : le_decode (le_bytes 4 z) = u32 z.
Proof. rewrite le_decode_le_bytes. reflexivity. Qed.

Lemma le_bytes_mod (n : nat) (z : Z) :
  le_bytes n (z mod 256 ^ Z.of_nat n) = le_bytes n z.
Proof.
  revert z. induction n as [|n IH]; intros z; [reflexivity|].
  cbn [le_bytes]. rewrite Nat2Z.inj_succ, Z.pow_succ_r by lia.
  f_equal.
  - unfold byte_of_Z. f_equal. f_equal.
    rewrite Z.rem_mul_r by lia.
    rewrite Z.add_mod, Z.mul_comm, Z.mod_mul, Z.add_0_r, !Z.mod_mod by lia.
    reflexivity.
  - rewrite <- (IH (z / 256)). f_equal.
    rewrite Z.rem_mul_r by lia.
    rewrite Z.mul_comm, Z.div_add by lia.
    rewrite (Z.div_small (z mod 256)) by (apply Z.mod_pos_bound; lia).
    reflexivity.
Qed.

Lemma le_bytes_u32 (z : Z) : le_bytes 4 (u32 z) = le_bytes 4 z.
Proof. apply (le_bytes_mod 4). Qed.

(** * Memory lemmas *)

Lemma length_read (m : memory) (off n : Z) : length (read m off n) = Z.to_nat n.
Proof. unfold read. now rewrite length_map, length_seq. Qed.

Lemma nth_read (m : memory) (off n : Z) (i : nat) :
  (i < Z.to_nat n)%nat -> nth i (read m off n) zero = m (off + Z.of_nat i).
Proof.
  intros Hi. unfold read.
  rewrite (nth_indep _ zero (m (off + Z.of_nat 0))) by (now rewrite length_map, length_seq).
  rewrite (map_nth (fun i => m (off + Z.of_nat i))), seq_nth by lia.
  reflexivity.
Qed.

Lemma of_list_nth (l : list ascii) (i : Z) :
  0 <= i -> of_list l i = nth (Z.to_nat i) l zero.
Proof. intros H. unfold of_list. destruct (Z.ltb_spec i 0); [lia | reflexivity]. Qed.

(** * The ring buffer *)

Ltac zcmp :=
  repeat match goal with
  | |- context [?a >? ?b] => rewrite (Z.gtb_ltb a b)
  | |- context [?a >=? ?b] => rewrite (Z.geb_leb a b)
  | |- context [?a <? ?b] => destruct (Z.ltb_spec a b)
  | |- context [?a <=? ?b] => destruct (Z.leb_spec a b)
  | |- context [?a =? ?b] => destruct (Z.eqb_spec a b)
  end.

Ltac zcmp_in H :=
  repeat match type of H with
  | context [?a >? ?b] => rewrite (Z.gtb_ltb a b) in H
  | context [?a >=? ?b] => rewrite (Z.geb_leb a b) in H
  | context [?a <? ?b] => destruct (Z.ltb_spec a b)
  | context [?a <=? ?b] => destruct (Z.leb_spec a b)
  | context [?a =? ?b] => destruct (Z.eqb_spec a b)
  end.

Lemma wf_tail_cases (b : Buffer.t) :
  Buffer.wf b ->
  Buffer.tail b = Buffer.head b + Buffer._size b
  \/ Buffer.tail b = Buffer.head b + Buffer._size b - Buffer.capacity b
  \/ (Buffer.tail b = Buffer.capacity b /\ Buffer.head b = 0 /\ Buffer._size b = 0).
Proof.
  intros [Hh Hs Ht Hm].
  rewrite (mod_wrap _ (Buffer.tail b)), (mod_wrap _ (Buffer.head b + Buffer._size b)) in Hm by lia.
  zcmp_in Hm; lia.
Qed.

Lemma wf_intro (b : Buffer.t) :
  0 <= Buffer.head b < Buffer.capacity b ->
  0 <= Buffer._size b <= Buffer.capacity b ->
  0 <= Buffer.tail b <= Buffer.capacity b ->
  (Buffer.tail b = Buffer.head b + Buffer._size b
   \/ Buffer.tail b = Buffer.head b + Buffer._size b - Buffer.capacity b
   \/ Buffer.tail b = Buffer.head b + Buffer._size b + Buffer.capacity b) ->
  Buffer.wf b.
Proof.
  intros Hh Hs Ht Hc. split; auto.
  rewrite (mod_wrap _ (Buffer.tail b)), (mod_wrap _ (Buffer.head b + Buffer._size b)) by lia.
  zcmp; lia.
Qed.

Lemma wf_index (b : Buffer.t) (i : Z) :
  Buffer.wf b -> 0 <= i <= Buffer.capacity b ->
  Buffer.index b i =
    if Buffer.head b + i <? Buffer.capacity b then Buffer.head b + i
    else Buffer.head b + i - Buffer.capacity b.
Proof.
  intros [Hh Hs Ht Hm] Hi. unfold Buffer.index. apply mod_wrap; lia.
Qed.

Lemma length_contents (b : Buffer.t) :
  length (Buffer.contents b) = Z.to_nat (Buffer._size b).
Proof. unfold Buffer.contents. now rewrite length_map, length_seq. Qed.

Lemma nth_contents (b : Buffer.t) (i : nat) :
  (i < Z.to_nat (Buffer._size b))%nat ->
  nth i (Buffer.contents b) zero = Buffer.at_ b (Z.of_nat i).
Proof.
  intros Hi. unfold Buffer.contents.
  rewrite (nth_indep _ zero (Buffer.at_ b (Z.of_nat 0)))
    by (now rewrite length_map, length_seq).
  rewrite (map_nth (fun i => Buffer.at_ b (Z.of_nat i))), seq_nth by lia.
  reflexivity.
Qed.

Lemma contents_ext (b : Buffer.t) (l : list ascii) :
  Z.of_nat (length l) = Buffer._size b ->
  (forall i, 0 <= i < Buffer._size b -> Buffer.at_ b i = nth (Z.to_nat i) l zero) ->
  Buffer.contents b = l.
Proof.
  intros Hlen Hat. apply (nth_ext _ _ zero zero).
  - rewrite length_contents. lia.
  - intros n Hn. rewrite length_contents in Hn.
    rewrite nth_contents by lia. rewrite Hat by lia. now rewrite Nat2Z.id.
Qed.

Lemma contents_at (b : Buffer.t) (i : Z) :
  0 <= i < Buffer._size b ->
  nth (Z.to_nat i) (Buffer.contents b) zero = Buffer.at_ b i.
Proof. intros Hi. rewrite nth_contents by lia. now rewrite Z2Nat.id by lia. Qed.

Lemma new_wf (c : Z) : 0 < c -> Buffer.wf (Buffer.new c).
Proof. intros Hc. apply wf_intro; simpl; lia. Qed.

Lemma new_contents (c : Z) : Buffer.contents (Buffer.new c) = [].
Proof. reflexivity. Qed.

(** ** resize *)

Lemma resize_wf (b : Buffer.t) (n : Z) :
  0 <= Buffer._size b <= n -> 0 < n -> Buffer.wf (Buffer.resize b n).
Proof. intros Hs Hn. apply wf_intro; simpl; lia. Qed.

Lemma resize_at (b : Buffer.t) (n i : Z) :
  Buffer.wf b -> Buffer._size b <= n -> 0 <= i < Buffer._size b ->
  Buffer.at_ (Buffer.resize b n) i = Buffer.at_ b i.
Proof.
  intros Hwf Hn Hi.
  pose proof (wf_tail_cases b Hwf) as Hc. pose proof Hwf as [Hh Hs Ht _].
  unfold Buffer.at_. rewrite (wf_index b) by (auto; lia).
  unfold Buffer.index, Buffer.resize; simpl.
  rewrite Z.mod_small by lia.
  rewrite size_sub_le by lia.
  unfold memcpy. zcmp; simpl; try lia; f_equal; lia.
Qed.

Lemma resize_contents (b : Buffer.t) (n : Z) :
  Buffer.wf b -> Buffer._size b <= n ->
  Buffer.contents (Buffer.resize b n) = Buffer.contents b.
Proof.
  intros Hwf Hn. apply contents_ext.
  - rewrite length_contents. simpl. destruct Hwf. lia.
  - intros i Hi. simpl in Hi. rewrite resize_at by auto.
    now rewrite contents_at.
Qed.

Ltac ssub :=
  repeat match goal with
  | |- context [size_sub ?a ?b] => rewrite (size_sub_le a b) by lia
  end.

(** ** append *)

Lemma append_size (b : Buffer.t) (src : list ascii) :
  Buffer._size (Buffer.append b src) = Buffer._size b + Z.of_nat (length src).
Proof. unfold Buffer.append. zcmp; reflexivity. Qed.

Lemma append_wf (b : Buffer.t) (src : list ascii) :
  Buffer.wf b -> Buffer.wf (Buffer.append b src).
Proof.
  intros Hwf. pose proof (wf_tail_cases b Hwf) as Hc. pose proof Hwf as [Hh Hs Ht _].
  unfold Buffer.append.
  destruct (Z.of_nat (length src) + Buffer._size b >? Buffer.capacity b) eqn:Hgrow.
  - simpl. zcmp; apply wf_intro; simpl; unfold size_sub; zcmp; lia.
  - zcmp_in Hgrow; try discriminate.
    zcmp; apply wf_intro; simpl; unfold size_sub; zcmp; lia.
Qed.

Lemma append_at_old (b : Buffer.t) (src : list ascii) (i : Z) :
  Buffer.wf b -> 0 <= i < Buffer._size b ->
  Buffer.at_ (Buffer.append b src) i = Buffer.at_ b i.
Proof.
  intros Hwf Hi. pose proof (wf_tail_cases b Hwf) as Hc. pose proof Hwf as [Hh Hs Ht _].
  unfold Buffer.append.
  destruct (Z.of_nat (length src) + Buffer._size b >? Buffer.capacity b) eqn:Hgrow.
  - zcmp_in Hgrow; try discriminate.
    rewrite <- (resize_at b
      (if Z.of_nat (length src) + Buffer._size b <? 1024 * 1024
       then (Z.of_nat (length src) + Buffer._size b) * 2
       else Z.of_nat (length src) + Buffer._size b + 1024 * 1024) i)
      by (auto; zcmp; lia).
    set (b1 := Buffer.resize b _).
    assert (Hcap : Z.of_nat (length src) + Buffer._size b < Buffer.capacity b1)
      by (subst b1; simpl; zcmp; lia).
    assert (Ht1 : Buffer.tail b1 = Buffer._size b) by reflexivity.
    assert (Hh1 : Buffer.head b1 = 0) by reflexivity.
    clearbody b1.
    unfold Buffer.at_, Buffer.index. rewrite Ht1.
    zcmp; simpl; try lia.
    rewrite Hh1, Z.mod_small by lia.
    unfold memcpy. zcmp; simpl; try lia. reflexivity.
  - zcmp_in Hgrow; try discriminate.
    unfold Buffer.at_. 
    zcmp; unfold Buffer.index; simpl;
      rewrite (mod_wrap _ (Buffer.head b + i)) by lia;
      ssub; unfold memcpy; zcmp; simpl; try lia; reflexivity.
Qed.

Lemma append_at_new (b : Buffer.t) (src : list ascii) (i : Z) :
  Buffer.wf b -> 0 <= i < Z.of_nat (length src) ->
  Buffer.at_ (Buffer.append b src) (Buffer._size b + i) = nth (Z.to_nat i) src zero.
Proof.
  intros Hwf Hi. pose proof (wf_tail_cases b Hwf) as Hc. pose proof Hwf as [Hh Hs Ht _].
  unfold Buffer.append.
  destruct (Z.of_nat (length src) + Buffer._size b >? Buffer.capacity b) eqn:Hgrow.
  - zcmp_in Hgrow; try discriminate.
    set (b1 := Buffer.resize b _).
    assert (Hcap : Z.of_nat (length src) + Buffer._size b < Buffer.capacity b1)
      by (subst b1; simpl; zcmp; lia).
    assert (Ht1 : Buffer.tail b1 = Buffer._size b) by reflexivity.
    assert (Hh1 : Buffer.head b1 = 0) by reflexivity.
    clearbody b1.
    unfold Buffer.at_, Buffer.index. rewrite Ht1.
    zcmp; simpl; try lia.
    rewrite Hh1, Z.mod_small by lia.
    unfold memcpy. zcmp; simpl; try lia.
    rewrite of_list_nth by lia. f_equal. lia.
  - zcmp_in Hgrow; try discriminate.
    unfold Buffer.at_.
    zcmp; unfold Buffer.index; simpl;
      rewrite (mod_wrap _ (Buffer.head b + (Buffer._size b + i))) by lia;
      ssub; unfold memcpy; zcmp; simpl; try lia;
      rewrite of_list_nth by lia; f_equal; lia.
Qed.

Lemma append_contents (b : Buffer.t) (src : list ascii) :
  Buffer.wf b -> Buffer.contents (Buffer.append b src) = Buffer.contents b ++ src.
Proof.
  intros Hwf. pose proof Hwf as [Hh Hs Ht _]. apply contents_ext.
  - rewrite append_size, length_app, length_contents. lia.
  - intros i Hi. rewrite append_size in Hi.
    destruct (Z.ltb_spec i (Buffer._size b)).
    + rewrite append_at_old by (auto; lia).
      rewrite app_nth1 by (rewrite length_contents; lia).
      now rewrite contents_at by lia.
    + replace i with (Buffer._size b + (i - Buffer._size b)) at 1 by lia.
      rewrite append_at_new by (auto; lia).
      rewrite app_nth2 by (rewrite length_contents; lia).
      rewrite length_contents. f_equal. lia.
Qed.

(** ** consume *)

Lemma consume_wf (b : Buffer.t) (n : Z) :
  Buffer.wf b -> 0 <= n <= Buffer._size b -> Buffer.wf (Buffer.consume b n).
Proof.
  intros Hwf Hn. pose proof (wf_tail_cases b Hwf) as Hc. pose proof Hwf as [Hh Hs Ht _].
  apply wf_intro; simpl; ssub; try lia.
  - apply Z.mod_pos_bound; lia.
  - rewrite (mod_wrap _ (Buffer.head b + n)) by lia. zcmp; lia.
Qed.

Lemma consume_at (b : Buffer.t) (n i : Z) :
  Buffer.wf b -> 0 <= n <= Buffer._size b -> 0 <= i < Buffer._size b - n ->
  Buffer.at_ (Buffer.consume b n) i = Buffer.at_ b (n + i).
Proof.
  intros Hwf Hn Hi. pose proof Hwf as [Hh Hs Ht _].
  unfold Buffer.at_, Buffer.index; simpl. f_equal.
  rewrite (mod_wrap _ (Buffer.head b + n)) by lia.
  rewrite (mod_wrap _ (Buffer.head b + (n + i))) by lia.
  zcmp; rewrite mod_wrap by lia; zcmp; lia.
Qed.

Lemma consume_contents (b : Buffer.t) (n : Z) :
  Buffer.wf b -> 0 <= n <= Buffer._size b ->
  Buffer.contents (Buffer.consume b n) = drop (Z.to_nat n) (Buffer.contents b).
Proof.
  intros Hwf Hn. apply contents_ext.
  - rewrite length_drop, length_contents. simpl. ssub. lia.
  - intros i Hi. simpl in Hi. rewrite size_sub_le in Hi by lia.
    rewrite consume_at by (auto; lia).
    rewrite nth_skipn, <- Z2Nat.inj_add by lia.
    now rewrite contents_at by lia.
Qed.

(** ** insert and the write through operator[] *)

Lemma overwrite_nth (c src : list ascii) (pos i : nat) :
  (pos + length src <= length c)%nat -> (i < length c)%nat ->
  nth i (take pos c ++ src ++ drop (pos + length src) c) zero =
    if (pos <=? i)%nat && (i <? pos + length src)%nat then nth (i - pos) src zero
    else nth i c zero.
Proof.
  intros Hp Hi.
  destruct (Nat.leb_spec pos i); simpl.
  - rewrite app_nth2 by (rewrite length_take; lia).
    rewrite length_take, Nat.min_l by lia.
    destruct (Nat.ltb_spec i (pos + length src)).
    + now rewrite app_nth1 by lia.
    + rewrite app_nth2 by lia. rewrite nth_skipn. f_equal. lia.
  - rewrite app_nth1 by (rewrite length_take; lia).
    rewrite nth_firstn. destruct (Nat.ltb_spec i pos); [reflexivity | lia].
Qed.

Lemma length_overwrite (c src : list ascii) (pos : nat) :
  (pos + length src <= length c)%nat ->
  length (take pos c ++ src ++ drop (pos + length src) c) = length c.
Proof.
  intros Hp. rewrite !length_app, length_take, length_drop. lia.
Qed.

Lemma insert_size (b : Buffer.t) (src : list ascii) (pos : Z) :
  Buffer._size (Buffer.insert b src pos) =
    if (pos <? Buffer._size b) && (Buffer._size b <? pos + Z.of_nat (length src))
    then pos + Z.of_nat (length src) else Buffer._size b.
Proof.
  unfold Buffer.insert.
  destruct (Z.ltb_spec pos (Buffer._size b)); simpl.
  - rewrite Z.geb_leb. destruct (Z.leb_spec (Buffer._size b) pos); [lia|].
    rewrite (Z.gtb_ltb (pos + _)).
    destruct (Z.ltb_spec (Buffer._size b) (pos + Z.of_nat (length src))); simpl;
      zcmp; reflexivity.
  - rewrite Z.geb_leb. destruct (Z.leb_spec (Buffer._size b) pos); [reflexivity | lia].
Qed.

Lemma insert_wf (b : Buffer.t) (src : list ascii) (pos : Z) :
  Buffer.wf b -> 0 <= pos -> Buffer.wf (Buffer.insert b src pos).
Proof.
  intros Hwf Hpos. pose proof (wf_tail_cases b Hwf) as Hc. pose proof Hwf as [Hh Hs Ht _].
  unfold Buffer.insert.
  rewrite Z.geb_leb. destruct (Z.leb_spec (Buffer._size b) pos); [assumption|].
  rewrite (Z.gtb_ltb (pos + _)).
  destruct (Z.ltb_spec (Buffer._size b) (pos + Z.of_nat (length src))); simpl.
  - rewrite (Z.gtb_ltb (pos + _)).
    destruct (Z.ltb_spec (Buffer.capacity b) (pos + Z.of_nat (length src))); simpl.
    + zcmp; apply wf_intro; simpl; lia.
    + assert (Hm : 0 <= (Buffer.head b + (pos + Z.of_nat (length src))) mod Buffer.capacity b
                   < Buffer.capacity b) by (apply Z.mod_pos_bound; lia).
      zcmp; split; simpl; try lia; now rewrite Z.mod_mod by lia.
  - rewrite (Z.gtb_ltb (Buffer._size b)).
    destruct (Z.ltb_spec (Buffer.capacity b) (Buffer._size b)); [lia|].
    zcmp; destruct Hwf; split; simpl; auto.
Qed.

Lemma insert_at (b : Buffer.t) (src : list ascii) (pos i : Z) :
  Buffer.wf b -> 0 <= pos -> pos + Z.of_nat (length src) <= Buffer._size b ->
  0 <= i < Buffer._size b ->
  Buffer.at_ (Buffer.insert b src pos) i =
    if (pos <=? i) && (i <? pos + Z.of_nat (length src))
    then nth (Z.to_nat (i - pos)) src zero else Buffer.at_ b i.
Proof.
  intros Hwf Hpos Hlen Hi. pose proof Hwf as [Hh Hs Ht _].
  unfold Buffer.insert.
  rewrite Z.geb_leb. destruct (Z.leb_spec (Buffer._size b) pos).
  { zcmp; simpl; try lia; reflexivity. }
  assert (E2 : (pos + Z.of_nat (length src) >? Buffer._size b) = false)
    by (zcmp; lia).
  assert (E3 : (Buffer._size b >? Buffer.capacity b) = false) by (zcmp; lia).
  rewrite E2, !E3.
  unfold Buffer.at_, Buffer.index.
  rewrite (mod_wrap _ (Buffer.head b + pos)) by lia.
  destruct (Z.ltb_spec (Buffer.head b + pos) (Buffer.capacity b));
    zcmp; simpl; rewrite (mod_wrap _ (Buffer.head b + i)) by lia;
    ssub; unfold memcpy; zcmp; simpl; try lia;
    first [ reflexivity | rewrite of_list_nth by lia; f_equal; lia | f_equal; lia ].
Qed.

Lemma insert_contents (b : Buffer.t) (src : list ascii) (pos : Z) :
  Buffer.wf b -> 0 <= pos -> pos + Z.of_nat (length src) <= Buffer._size b ->
  Buffer.contents (Buffer.insert b src pos) =
    take (Z.to_nat pos) (Buffer.contents b) ++ src
    ++ drop (Z.to_nat pos + length src) (Buffer.contents b).
Proof.
  intros Hwf Hpos Hlen. pose proof Hwf as [Hh Hs Ht _].
  assert (Hsz : Buffer._size (Buffer.insert b src pos) = Buffer._size b).
  { rewrite insert_size. zcmp; simpl; lia. }
  apply contents_ext.
  - rewrite length_overwrite by (rewrite length_contents; lia).
    rewrite length_contents. lia.
  - intros i Hi. rewrite Hsz in Hi. rewrite insert_at by (auto; lia).
    rewrite overwrite_nth by (rewrite length_contents; lia).
    rewrite contents_at by lia.
    destruct (Z.leb_spec pos i), (Nat.leb_spec (Z.to_nat pos) (Z.to_nat i)); try lia;
      destruct (Z.ltb_spec i (pos + Z.of_nat (length src))),
               (Nat.ltb_spec (Z.to_nat i) (Z.to_nat pos + length src)); try lia; simpl;
      try reflexivity.
    f_equal. lia.
Qed.

Lemma write_at_wf (b : Buffer.t) (pos : Z) (src : list ascii) :
  Buffer.wf b -> Buffer.wf (Buffer.write_at b pos src).
Proof. intros [? ? ? ?]. split; simpl; auto. Qed.

Lemma write_at_at (b : Buffer.t) (src : list ascii) (pos i : Z) :
  Buffer.wf b -> 0 <= pos -> pos + Z.of_nat (length src) <= Buffer._size b ->
  Buffer.index b pos + Z.of_nat (length src) <= Buffer.capacity b ->
  0 <= i < Buffer._size b ->
  Buffer.at_ (Buffer.write_at b pos src) i =
    if (pos <=? i) && (i <? pos + Z.of_nat (length src))
    then nth (Z.to_nat (i - pos)) src zero else Buffer.at_ b i.
Proof.
  intros Hwf Hpos Hlen Hfit Hi. pose proof Hwf as [Hh Hs Ht _].
  unfold Buffer.at_, Buffer.write_at; simpl.
  unfold Buffer.index in *; simpl.
  rewrite (mod_wrap _ (Buffer.head b + pos)) in * by lia.
  rewrite (mod_wrap _ (Buffer.head b + i)) by lia.
  destruct (Z.ltb_spec (Buffer.head b + pos) (Buffer.capacity b));
    unfold memcpy; zcmp; simpl; try lia;
    try reflexivity; rewrite of_list_nth by lia; f_equal; lia.
Qed.

Lemma write_at_contents (b : Buffer.t) (src : list ascii) (pos : Z) :
  Buffer.wf b -> 0 <= pos -> pos + Z.of_nat (length src) <= Buffer._size b ->
  Buffer.index b pos + Z.of_nat (length src) <= Buffer.capacity b ->
  Buffer.contents (Buffer.write_at b pos src) =
    take (Z.to_nat pos) (Buffer.contents b) ++ src
    ++ drop (Z.to_nat pos + length src) (Buffer.contents b).
Proof.
  intros Hwf Hpos Hlen Hfit. pose proof Hwf as [Hh Hs Ht _].
  apply contents_ext.
  - rewrite length_overwrite by (rewrite length_contents; lia).
    rewrite length_contents. simpl. lia.
  - intros i Hi. simpl in Hi. rewrite write_at_at by (auto; lia).
    rewrite overwrite_nth by (rewrite length_contents; lia).
    rewrite contents_at by lia.
    destruct (Z.leb_spec pos i), (Nat.leb_spec (Z.to_nat pos) (Z.to_nat i)); try lia;
      destruct (Z.ltb_spec i (pos + Z.of_nat (length src))),
               (Nat.ltb_spec (Z.to_nat i) (Z.to_nat pos + length src)); try lia; simpl;
      try reflexivity.
    f_equal. lia.
Qed.

(** ** peek and get_continuous_data *)

Lemma peek_none (b : Buffer.t) (pos len : Z) :
  Buffer._size b <= pos -> Buffer.peek b pos len = None.
Proof.
  intros H. unfold Buffer.peek. rewrite Z.geb_leb.
  destruct (Z.leb_spec (Buffer._size b) pos); [reflexivity | lia].
Qed.

Lemma peek_some (b : Buffer.t) (pos len : Z) :
  pos < Buffer._size b -> exists bs, Buffer.peek b pos len = Some bs.
Proof.
  intros H. unfold Buffer.peek. rewrite Z.geb_leb.
  destruct (Z.leb_spec (Buffer._size b) pos); [lia|].
  destruct (_ <=? _); eauto.
Qed.

Lemma peek_contents (b : Buffer.t) (pos len : Z) :
  Buffer.wf b -> 0 <= pos < Buffer._size b -> 0 <= len ->
  pos + len <= Buffer._size b ->
  Buffer.peek b pos len =
    Some (take (Z.to_nat len) (drop (Z.to_nat pos) (Buffer.contents b))).
Proof.
  intros Hwf Hpos Hlen Hfit. pose proof Hwf as [Hh Hs Ht _].
  assert (Hnth : forall i, (i < Z.to_nat len)%nat ->
            nth i (take (Z.to_nat len) (drop (Z.to_nat pos) (Buffer.contents b))) zero
            = Buffer.data b ((Buffer.head b + (pos + Z.of_nat i)) mod Buffer.capacity b)).
  { intros i Hi. rewrite nth_firstn.
    destruct (Nat.ltb_spec i (Z.to_nat len)); [|lia].
    rewrite nth_skipn, <- (Nat2Z.id (Z.to_nat pos + i)), contents_at by lia.
    unfold Buffer.at_, Buffer.index. do 2 f_equal. lia. }
  assert (Hl : length (take (Z.to_nat len) (drop (Z.to_nat pos) (Buffer.contents b)))
               = Z.to_nat len).
  { rewrite length_take, length_drop, length_contents. lia. }
  unfold Buffer.peek.
  rewrite Z.geb_leb. destruct (Z.leb_spec (Buffer._size b) pos); [lia|].
  rewrite (mod_wrap _ (Buffer.head b + pos)) by lia.
  destruct (Z.ltb_spec (Buffer.head b + pos) (Buffer.capacity b));
    zcmp; ssub; f_equal; apply (nth_ext _ _ zero zero);
    rewrite ?length_app, ?length_read, ?Hl; try lia; intros i Hi;
    rewrite Hnth by lia;
    rewrite (mod_wrap _ (Buffer.head b + (pos + Z.of_nat i))) by lia.
  - rewrite nth_read by lia. zcmp; try lia. f_equal; lia.
  - destruct (Nat.ltb_spec i (Z.to_nat (Buffer.capacity b - (Buffer.head b + pos)))).
    + rewrite app_nth1, nth_read by (rewrite ?length_read; lia).
      zcmp; try lia. f_equal; lia.
    + rewrite app_nth2, length_read, nth_read by (rewrite ?length_read; lia).
      zcmp; try lia. f_equal; lia.
  - rewrite nth_read by lia. zcmp; try lia. f_equal; lia.
Qed.

Lemma get_continuous_data_front (b : Buffer.t) :
  fifo b -> 0 < Buffer._size b ->
  Buffer.get_continuous_data b 0 =
    (Some (Buffer.head b),
     Z.min (Buffer._size b) (Buffer.capacity b - Buffer.head b)).
Proof.
  intros [Hwf Hpos] Hs0. pose proof (wf_tail_cases b Hwf) as Hc.
  pose proof Hwf as [Hh Hs Ht _]. specialize (Hpos Hs0).
  unfold Buffer.get_continuous_data.
  rewrite Z.add_0_r, Z.mod_small by lia.
  zcmp; try lia; ssub; f_equal; lia.
Qed.

Lemma fifo_new (c : Z) : 0 < c -> fifo (Buffer.new c).
Proof. intros Hc. split; [now apply new_wf | simpl; lia]. Qed.

Lemma fifo_append (b : Buffer.t) (src : list ascii) :
  fifo b -> fifo (Buffer.append b src).
Proof.
  intros [Hwf Hpos]. split; [now apply append_wf|].
  pose proof (wf_tail_cases b Hwf) as Hc. pose proof Hwf as [Hh Hs Ht _].
  unfold Buffer.append.
  destruct (Z.of_nat (length src) + Buffer._size b >? Buffer.capacity b) eqn:Hgrow.
  - zcmp_in Hgrow; try discriminate. simpl. zcmp; simpl; ssub; lia.
  - zcmp_in Hgrow; try discriminate. zcmp; simpl; ssub; lia.
Qed.

Lemma fifo_consume (b : Buffer.t) (n : Z) :
  fifo b -> 0 <= n <= Buffer._size b -> fifo (Buffer.consume b n).
Proof.
  intros [Hwf Hpos] Hn. split; [now apply consume_wf|].
  simpl. ssub. lia.
Qed.

Lemma reachable_wf (b : Buffer.t) : reachable b -> Buffer.wf b.
Proof.
  induction 1.
  - now apply new_wf.
  - now apply append_wf.
  - now apply consume_wf.
  - apply resize_wf; [destruct IHreachable|]; lia.
  - apply insert_wf; [assumption | lia].
Qed.

(** * The claims on the ring buffer *)

(** C6, counterexample: a fresh buffer of the default capacity that is
    appended exactly 1024 bytes is reachable, and its [tail] is 1024, not
    (head + size) mod capacity = 0. *)
Lemma C6_counterexample :
  let b := Buffer.append Buffer.default (repeat "a"%char 1024) in
  reachable b /\ ~ Buffer.spec_inv b.
Proof.
  split.
  - apply reach_append, reach_new. lia.
  - intros (_ & H & _). vm_compute in H. discriminate.
Qed.

(** C6, as amended: in every state reachable from a fresh buffer of
    positive capacity by [append], by [consume] of at most [size] bytes,
    by [resize] to a positive capacity of at least [size], and by [insert]
    at a position below [size], head < capacity, size <= capacity,
    tail <= capacity and tail is congruent to head + size modulo capacity;
    the equation tail = (head + size) mod capacity holds whenever tail is
    not capacity. *)
Theorem C6_invariant (b : Buffer.t) :
  reachable b ->
  Buffer.wf b /\ (Buffer.tail b <> Buffer.capacity b -> Buffer.spec_inv b).
Proof.
  intros Hr. pose proof (reachable_wf b Hr) as Hwf. split; [assumption|].
  intros Hne. destruct Hwf as [Hh Hs Ht Hm]. repeat split; try lia.
  rewrite <- Hm. symmetry. apply Z.mod_small. lia.
Qed.

Lemma C6_invariant_witness :
  let b := Buffer.insert
             (Buffer.consume (Buffer.append Buffer.default (repeat "a"%char 1024)) 10)
             (repeat "b"%char 4) 1000 in
  Buffer.wf b /\ (Buffer.tail b <> Buffer.capacity b -> Buffer.spec_inv b).
Proof.
  apply C6_invariant.
  apply reach_insert; [apply reach_consume; [apply reach_append, reach_new; lia|] |];
    vm_compute; split; first [discriminate | reflexivity].
Defined.

(** C7: an append of [len] bytes onto a buffer of size [s] and capacity
    [C] with s + len > C grows the capacity to 2 (s + len) when
    s + len < 1 MiB and to s + len + 1 MiB otherwise; the growth leaves
    head = 0 and tail = size with the content unchanged, and so does the
    whole append, whose content is the old one followed by the new bytes. *)
Theorem C7_append_growth (b : Buffer.t) (src : list ascii) :
  Buffer.wf b ->
  Z.of_nat (length src) + Buffer._size b > Buffer.capacity b ->
  let s := Buffer._size b in
  let len := Z.of_nat (length src) in
  let new_capacity :=
    if s + len <? 1024 * 1024 then 2 * (s + len) else s + len + 1024 * 1024 in
  let grown := Buffer.resize b new_capacity in
  let b' := Buffer.append b src in
  (Buffer.capacity grown = new_capacity /\ Buffer.head grown = 0 /\
   Buffer.tail grown = Buffer._size grown /\
   Buffer.contents grown = Buffer.contents b) /\
  Buffer.capacity b' = new_capacity /\
  Buffer.head b' = 0 /\
  Buffer.tail b' = Buffer._size b' /\
  Buffer._size b' = s + len /\
  Buffer.contents b' = Buffer.contents b ++ src.
Proof.
  intros Hwf Hgrow s len new_capacity grown b'.
  pose proof Hwf as [Hh Hs Ht _].
  assert (Hcap : s + len < new_capacity)
    by (subst new_capacity s len; zcmp; lia).
  split; [repeat split|].
  - apply resize_contents; [assumption | subst s len; lia].
  - assert (Hsz : Buffer._size b' = s + len)
      by (subst b' s len; rewrite append_size; lia).
    assert (Hc : Buffer.contents b' = Buffer.contents b ++ src)
      by (apply append_contents; assumption).
    subst b'. unfold Buffer.append in *.
    replace (Z.of_nat (length src) + Buffer._size b >? Buffer.capacity b) with true in *
      by (symmetry; apply Z.gtb_gt; lia).
    replace (if Z.of_nat (length src) + Buffer._size b <? 1024 * 1024
             then (Z.of_nat (length src) + Buffer._size b) * 2
             else Z.of_nat (length src) + Buffer._size b + 1024 * 1024)
      with new_capacity in *
      by (subst new_capacity s len; zcmp; lia).
    fold grown in Hsz, Hc |- *.
    assert (E : (Buffer.tail grown + Z.of_nat (length src) >? Buffer.capacity grown) = false).
    { rewrite Z.gtb_ltb. apply Z.ltb_ge. subst grown s len. simpl. lia. }
    rewrite E in *. simpl. repeat split; auto; subst s len; lia.
Qed.

Lemma C7_append_growth_witness :
  let b := Buffer.new 4 in
  let src := list_ascii_of_string "abcdef" in
  Buffer.capacity (Buffer.append b src) = 12 /\
  Buffer.head (Buffer.append b src) = 0 /\
  Buffer.tail (Buffer.append b src) = Buffer._size (Buffer.append b src) /\
  Buffer.contents (Buffer.append b src) = Buffer.contents b ++ src.
Proof.
  intros b src.
  destruct (C7_append_growth b src) as (_ & Hc & Hh & Ht & _ & Hd).
  - apply new_wf. lia.
  - vm_compute. reflexivity.
  - split; [exact Hc | split; [exact Hh | split; [exact Ht | exact Hd]]].
Defined.

(** C8: on a fresh buffer that holds 600 bytes, the span asked from
    position 500 starts at the right byte but is 524 bytes long, up to the
    end of the array, where the content has 100 bytes left. *)
Theorem C8_get_continuous_data_overrun :
  let b := Buffer.append Buffer.default (repeat "a"%char 600) in
  reachable b /\
  Buffer.get_continuous_data b 500 = (Some 500, 524) /\
  Z.min (Buffer._size b - 500)
        (Buffer.capacity b - (Buffer.head b + 500) mod Buffer.capacity b) = 100.
Proof.
  split; [apply reach_append, reach_new; lia|].
  split; vm_compute; reflexivity.
Qed.

Lemma le_decode_nonneg (bs : list ascii) : 0 <= le_decode bs.
Proof.
  induction bs as [|a bs IH]; simpl; [lia|].
  pose proof (Z_of_byte_range a). lia.
Qed.

Lemma try_one_request_total {libc : Libc} (st : State) (env : Env) (conn : Conn) :
  try_one_request st env conn <> None.
Proof.
  unfold try_one_request.
  destruct (Z.ltb_spec (Buffer.size (incoming conn)) 4); [discriminate|].
  unfold Buffer.peek_u32.
  destruct (peek_some (incoming conn) 0 4) as [bs Hbs];
    [unfold Buffer.size in *; lia|].
  rewrite Hbs.
  pose proof (le_decode_nonneg bs) as Hlen.
  set (len := le_decode bs) in *.
  rewrite Z.gtb_ltb. destruct (Z.ltb_spec k_max_msg len); [discriminate|].
  assert (Hu : u32 (4 + len) = 4 + len).
  { unfold u32. apply Z.mod_small.
    change k_max_msg with 33554432 in *. change (2 ^ 32) with 4294967296. lia. }
  rewrite Hu, Z.gtb_ltb.
  destruct (Z.ltb_spec (Buffer.size (incoming conn)) (4 + len)); [discriminate|].
  destruct (Buffer.peek (incoming conn) 4 len) as [req|] eqn:Hreq.
  - destruct (parse_req req); [|discriminate].
    destruct (response_begin _), (do_request _ _ _ _). discriminate.
  - assert (Hz : len = 0).
    { destruct (Z.eq_dec len 0); [assumption|].
      destruct (peek_some (incoming conn) 4 len) as [x Hx];
        [unfold Buffer.size in *; lia | congruence]. }
    rewrite Hz. change (0 =? 0) with true. cbv iota.
    destruct (parse_req []); [|discriminate].
    destruct (response_begin _), (do_request _ _ _ _). discriminate.
Qed.

(** C10: [peek] writes nothing and [peek_u32] returns an indeterminate
    value when pos >= size; under pos + 4 <= size, [peek_u32] returns the
    four bytes at [pos] as a little-endian number; [try_one_request], which
    calls it only after finding at least four bytes, never reads an
    indeterminate value. *)
Theorem C10_peek_u32 :
  (forall b pos, Buffer._size b <= pos ->
     Buffer.peek b pos 4 = None /\ Buffer.peek_u32 b pos = None) /\
  (forall b pos, Buffer.wf b -> 0 <= pos -> pos + 4 <= Buffer._size b ->
     Buffer.peek_u32 b pos =
       Some (le_decode (take 4 (drop (Z.to_nat pos) (Buffer.contents b))))) /\
  (forall conn : Conn, 4 <= Buffer.size (incoming conn) ->
     Buffer.peek_u32 (incoming conn) 0 <> None) /\
  (forall (libc : Libc) (st : State) (env : Env) (conn : Conn),
     try_one_request st env conn <> None).
Proof.
  repeat split.
  - now apply peek_none.
  - unfold Buffer.peek_u32. now rewrite peek_none.
  - intros b pos Hwf Hpos Hfit. unfold Buffer.peek_u32.
    now rewrite peek_contents by (auto; lia).
  - intros conn Hsz. unfold Buffer.peek_u32.
    destruct (peek_some (incoming conn) 0 4) as [bs Hbs];
      [unfold Buffer.size in *; lia|].
    now rewrite Hbs.
  - intros. apply try_one_request_total.
Qed.

Lemma C10_peek_u32_witness :
  let b := Buffer.append Buffer.default (le_bytes 4 258 ++ le_bytes 4 7) in
  Buffer.peek_u32 b 4 = Some 7 /\ Buffer.peek_u32 b 8 = None.
Proof.
  intros b. destruct C10_peek_u32 as (Hnone & Hsome & _). split.
  - rewrite (Hsome b 4).
    + vm_compute. reflexivity.
    + apply append_wf, new_wf. lia.
    + lia.
    + vm_compute. discriminate.
  - apply (Hnone b 8). vm_compute. discriminate.
Defined.

(** * The response cap *)

Lemma response_end_size (out : Buffer.t) (header : Z) :
  0 <= header -> header + 4 <= Buffer._size out ->
  response_size out header > k_max_msg ->
  Buffer._size (response_end out header) = Buffer._size out + 29.
Proof.
  intros Hh Hfit Hbig. unfold response_end.
  replace (response_size out header >? k_max_msg) with true
    by (symmetry; apply Z.gtb_gt; lia).
  rewrite insert_size.
  unfold out_err, buf_append, buf_append_u32, buf_append_u8,
    Buffer.append_u32, Buffer.append_u8.
  rewrite !append_size, !length_le_bytes. simpl Buffer._size.
  change (Z.of_nat (length (bytes_of "response is too big."))) with 20.
  zcmp; simpl; lia.
Qed.

(** C3: the response of 32 MiB + 1 bytes is over the cap; [resize] to
    header + 4 only shrinks the capacity, to 4, and leaves the size; the
    finished response has all its bytes and the error record behind them:
    29 bytes more, a body of 32 MiB + 30 bytes, announced as such by the
    header, and still a byte of the old body at position 4. *)
Theorem C3_response_not_truncated :
  let out := response_end oversized_out 0 in
  Buffer.wf oversized_out /\
  response_size oversized_out 0 = k_max_msg + 1 /\
  Buffer.capacity (Buffer.resize oversized_out (0 + 4)) = 4 /\
  Buffer._size (Buffer.resize oversized_out (0 + 4)) = Buffer._size oversized_out /\
  Buffer._size out = Buffer._size oversized_out + 29 /\
  response_size out 0 = k_max_msg + 30 /\
  Buffer.peek_u32 out 0 = Some (k_max_msg + 30) /\
  Buffer.at_ out 4 = "a"%char.
Proof.
  split; [apply wf_intro; simpl; lia|].
  repeat split; vm_compute; reflexivity.
Qed.

(** * Serialization *)

Lemma out_nil_wf (out : Buffer.t) : Buffer.wf out -> Buffer.wf (out_nil out).
Proof. intros. now apply append_wf. Qed.

Lemma out_nil_contents (out : Buffer.t) :
  Buffer.wf out -> Buffer.contents (out_nil out) = Buffer.contents out ++ enc_nil.
Proof. intros. now apply append_contents. Qed.

Lemma out_str_wf (out : Buffer.t) (s : string) :
  Buffer.wf out -> Buffer.wf (out_str out s).
Proof. intros. now repeat apply append_wf. Qed.

Lemma out_str_contents (out : Buffer.t) (s : string) :
  Buffer.wf out -> Buffer.contents (out_str out s) = Buffer.contents out ++ enc_str s.
Proof.
  intros. unfold out_str, buf_append, buf_append_u32, buf_append_u8,
    Buffer.append_u32, Buffer.append_u8, enc_str.
  rewrite !append_contents by (repeat apply append_wf; assumption).
  now rewrite <- !app_assoc.
Qed.

Lemma out_int_wf (out : Buffer.t) (v : Z) :
  Buffer.wf out -> Buffer.wf (out_int out v).
Proof. intros. now repeat apply append_wf. Qed.

Lemma out_int_contents (out : Buffer.t) (v : Z) :
  Buffer.wf out -> Buffer.contents (out_int out v) = Buffer.contents out ++ enc_int v.
Proof.
  intros. unfold out_int, buf_append_i64, buf_append_u8,
    Buffer.append_i64, Buffer.append_u8, enc_int.
  rewrite !append_contents by (repeat apply append_wf; assumption).
  now rewrite <- !app_assoc.
Qed.

Lemma out_err_wf (out : Buffer.t) (code : Z) (msg : string) :
  Buffer.wf out -> Buffer.wf (out_err out code msg).
Proof. intros. now repeat apply append_wf. Qed.

Lemma out_err_contents (out : Buffer.t) (code : Z) (msg : string) :
  Buffer.wf out ->
  Buffer.contents (out_err out code msg) = Buffer.contents out ++ enc_err code msg.
Proof.
  intros. unfold out_err, buf_append, buf_append_u32, buf_append_u8,
    Buffer.append_u32, Buffer.append_u8, enc_err.
  rewrite !append_contents by (repeat apply append_wf; assumption).
  now rewrite <- !app_assoc.
Qed.

Lemma out_arr_wf (out : Buffer.t) (n : Z) :
  Buffer.wf out -> Buffer.wf (out_arr out n).
Proof. intros. now repeat apply append_wf. Qed.

Lemma out_arr_contents (out : Buffer.t) (n : Z) :
  Buffer.wf out -> Buffer.contents (out_arr out n) = Buffer.contents out ++ enc_arr n.
Proof.
  intros. unfold out_arr, buf_append_u32, buf_append_u8,
    Buffer.append_u32, Buffer.append_u8, enc_arr.
  rewrite !append_contents by (repeat apply append_wf; assumption).
  now rewrite <- !app_assoc.
Qed.

Lemma out_dbl_wf {libc : Libc} (out : Buffer.t) (v : dbl) :
  Buffer.wf out -> Buffer.wf (out_dbl out v).
Proof. intros. now repeat apply append_wf. Qed.

Lemma out_dbl_contents {libc : Libc} (out : Buffer.t) (v : dbl) :
  Buffer.wf out -> Buffer.contents (out_dbl out v) = Buffer.contents out ++ enc_dbl v.
Proof.
  intros. unfold out_dbl, buf_append, buf_append_u8, Buffer.append_u8, enc_dbl.
  rewrite !append_contents by (repeat apply append_wf; assumption).
  now rewrite <- !app_assoc.
Qed.

(** * The log buffer *)

Lemma aof_write_command_fifo (buf : Buffer.t) (cmd : list string) :
  fifo buf -> fifo (aof_write_command buf cmd).
Proof.
  intros Hf. unfold aof_write_command. destruct cmd as [|c cmd]; [assumption|].
  generalize (c :: cmd). intros l.
  assert (Hb : fifo (buf_append_u32 buf (u32 (Z.of_nat (length l)))))
    by now apply fifo_append.
  revert Hb. generalize (buf_append_u32 buf (u32 (Z.of_nat (length l)))).
  induction l as [|s l IH]; intros b Hb; simpl; [assumption|].
  apply IH. now repeat apply fifo_append.
Qed.

Lemma aof_write_command_contents (buf : Buffer.t) (cmd : list string) :
  Buffer.wf buf ->
  Buffer.contents (aof_write_command buf cmd) = Buffer.contents buf ++ aof_frame cmd.
Proof.
  intros Hwf. unfold aof_write_command, aof_frame.
  destruct cmd as [|c cmd]; [now rewrite app_nil_r|].
  generalize (c :: cmd). intros l.
  unfold buf_append_u32 at 2. unfold Buffer.append_u32.
  rewrite app_assoc, <- append_contents by assumption.
  assert (Hb : Buffer.wf (Buffer.append buf (le_bytes 4 (u32 (Z.of_nat (length l))))))
    by now apply append_wf.
  revert Hb. generalize (Buffer.append buf (le_bytes 4 (u32 (Z.of_nat (length l))))).
  induction l as [|s l IH]; intros b Hb; simpl; [now rewrite app_nil_r|].
  rewrite IH by (now repeat apply append_wf).
  unfold buf_append, buf_append_u32, Buffer.append_u32.
  rewrite !append_contents by (repeat apply append_wf; assumption).
  now rewrite <- !app_assoc.
Qed.

(** * The dispatcher *)

Lemma cmd_is_length (cmd : list string) (n : nat) (name : string) :
  cmd_is cmd n name = true -> length cmd = n /\ arg cmd 0 = name.
Proof.
  unfold cmd_is. intros H. apply andb_true_iff in H as [H1 H2].
  apply Nat.eqb_eq in H1. apply String.eqb_eq in H2. auto.
Qed.

Lemma cmd_is_excl (cmd : list string) (n m : nat) (a b : string) :
  cmd_is cmd n a = true -> n <> m \/ a <> b -> cmd_is cmd m b = false.
Proof.
  intros H Hne. apply cmd_is_length in H as [Hl Ha]. unfold cmd_is.
  apply andb_false_iff. destruct Hne as [Hne | Hne].
  - left. apply Nat.eqb_neq. lia.
  - right. apply String.eqb_neq. congruence.
Qed.

Ltac other_cmd H :=
  repeat match goal with
  | |- context [cmd_is ?c ?m ?b] =>
    rewrite (cmd_is_excl c _ m _ b H) by (first [left; lia | right; discriminate])
  end.

Lemma do_request_set {libc : Libc} st env cmd out :
  cmd_is cmd 3 "set" = true ->
  do_request st env cmd out = logged st env cmd out do_set.
Proof. intros H. unfold do_request. rewrite H. other_cmd H. reflexivity. Qed.

Lemma do_request_del {libc : Libc} st env cmd out :
  cmd_is cmd 2 "del" = true ->
  do_request st env cmd out = logged st env cmd out do_del.
Proof. intros H. unfold do_request. rewrite H. other_cmd H. reflexivity. Qed.

Lemma do_request_pexpire {libc : Libc} st env cmd out :
  cmd_is cmd 3 "pexpire" = true ->
  do_request st env cmd out =
    logged st env cmd out (fun s c o => do_expire s env c o).
Proof. intros H. unfold do_request. rewrite H. other_cmd H. reflexivity. Qed.

Lemma do_request_zadd {libc : Libc} st env cmd out :
  cmd_is cmd 4 "zadd" = true ->
  do_request st env cmd out = logged st env cmd out do_zadd.
Proof. intros H. unfold do_request. rewrite H. other_cmd H. reflexivity. Qed.

Lemma do_request_zrem {libc : Libc} st env cmd out :
  cmd_is cmd 3 "zrem" = true ->
  do_request st env cmd out = logged st env cmd out do_zrem.
Proof. intros H. unfold do_request. rewrite H. other_cmd H. reflexivity. Qed.

Lemma do_request_zquery {libc : Libc} st env cmd out :
  cmd_is cmd 6 "zquery" = true ->
  do_request st env cmd out = (st, do_zquery st cmd out).
Proof. intros H. unfold do_request. rewrite H. other_cmd H. reflexivity. Qed.

Lemma same_log_refl {libc : Libc} (st : State) : same_log st st.
Proof. repeat split. Qed.

Lemma entry_set_ttl_same_log {libc : Libc} st ent ttl now :
  same_log st (fst (entry_set_ttl st ent ttl now)).
Proof.
  unfold entry_set_ttl.
  destruct (_ && _); [destruct (heap_delete _ _); repeat split|].
  destruct (ttl >=? 0); [destruct (heap_upsert _ _ _)|]; repeat split.
Qed.

Lemma do_set_same_log {libc : Libc} st cmd out : same_log st (fst (do_set st cmd out)).
Proof.
  unfold do_set. destruct (db st !! arg cmd 1); [destruct (negb _)|]; repeat split.
Qed.

Lemma do_del_same_log {libc : Libc} st cmd out : same_log st (fst (do_del st cmd out)).
Proof.
  unfold do_del. destruct (db st !! arg cmd 1); [|repeat split].
  unfold entry_del. simpl.
  apply (entry_set_ttl_same_log (set_db st (delete (arg cmd 1) (db st)))).
Qed.

Lemma do_expire_same_log {libc : Libc} st env cmd out :
  same_log st (fst (do_expire st env cmd out)).
Proof.
  unfold do_expire. destruct (str2int _); [|repeat split].
  destruct (db st !! arg cmd 1) as [ent|]; [|repeat split].
  pose proof (entry_set_ttl_same_log st ent z (now_ms env)) as H.
  destruct (entry_set_ttl st ent z (now_ms env)). exact H.
Qed.

Lemma do_zadd_same_log {libc : Libc} st cmd out : same_log st (fst (do_zadd st cmd out)).
Proof.
  unfold do_zadd. destruct (str2dbl _); [|repeat split].
  destruct (db st !! arg cmd 1) as [ent|].
  - destruct (negb _); [repeat split|]. destruct (zset_insert _ _ _). repeat split.
  - destruct (zset_insert _ _ _). repeat split.
Qed.

Lemma do_zrem_same_log {libc : Libc} st cmd out : same_log st (fst (do_zrem st cmd out)).
Proof.
  unfold do_zrem. destruct (expect_zset _ _); [repeat split .. |].
  destruct (zset_lookup _ _); repeat split.
Qed.

(** The five logged commands run one of the handlers between the append
    to the log buffer and the flush. *)
Lemma do_request_mutating {libc : Libc} st env cmd out :
  mutating cmd = true ->
  exists handler,
    do_request st env cmd out = logged st env cmd out handler /\
    forall s c o, same_log s (fst (handler s c o)).
Proof.
  unfold mutating. intros H.
  repeat (apply orb_true_iff in H as [H | H]).
  - exists do_set. split; [now apply do_request_set | apply do_set_same_log].
  - exists do_del. split; [now apply do_request_del | apply do_del_same_log].
  - exists (fun s c o => do_expire s env c o).
    split; [now apply do_request_pexpire | intros; apply do_expire_same_log].
  - exists do_zadd. split; [now apply do_request_zadd | apply do_zadd_same_log].
  - exists do_zrem. split; [now apply do_request_zrem | apply do_zrem_same_log].
Qed.

(** What the flush leaves in the log buffer: the content without the
    bytes [write] took. *)
Lemma aof_flush_and_sync_contents {libc : Libc} (st : State) (env : Env) :
  fifo (aof_buf st) ->
  exists k, 0 <= k <= Z.max 0 (write_accept env) /\
    Buffer.contents (aof_buf (aof_flush_and_sync st env)) =
      drop (Z.to_nat k) (Buffer.contents (aof_buf st)) /\
    db (aof_flush_and_sync st env) = db st /\
    heap (aof_flush_and_sync st env) = heap st.
Proof.
  intros Hf. unfold aof_flush_and_sync.
  destruct (negb (aof_enabled st) || Buffer.empty (aof_buf st) || (aof_fd st <? 0)) eqn:Hskip.
  { exists 0. repeat split; lia. }
  apply orb_false_iff in Hskip as [Hskip _].
  apply orb_false_iff in Hskip as [_ Hne].
  unfold Buffer.empty in Hne. apply Z.eqb_neq in Hne.
  assert (Hs : 0 < Buffer._size (aof_buf st)) by (destruct Hf as [[? ? ? ?] _]; lia).
  rewrite get_continuous_data_front by assumption.
  unfold sys_write.
  destruct (Z.ltb_spec (write_accept env) 0).
  { simpl. exists 0. repeat split; lia. }
  set (rv := Z.min _ _).
  assert (Hrv : 0 <= rv <= Buffer._size (aof_buf st))
    by (subst rv; destruct Hf as [[? ? ? ?] _]; lia).
  destruct (Z.ltb_spec rv 0); [lia|].
  exists rv. split; [subst rv; lia|].
  destruct (_ >? 1000); simpl;
    (split; [apply consume_contents; [apply Hf | assumption] | split; reflexivity]).
Qed.

(** * C1: the log is written before the command runs *)

(** C1, counterexample: [set z v] on a key that holds a sorted set replies
    with an error and leaves the store as it was, and the log buffer,
    empty before, holds the frame of the command. *)
Lemma C1_counterexample :
  let cmd := ["set"; "z"; "v"]%string in
  let r := do_request zset_store (env_at 0) cmd Buffer.default in
  aof_enabled zset_store = true /\
  Buffer.contents (aof_buf zset_store) = [] /\
  Buffer.contents (snd r) = enc_err ERR_BAD_TYP "a non-string value exists" /\
  store_view (fst r) = store_view zset_store /\
  store_view (fst r) = [("z", size_max, T_ZSET, "", [("a", 1)])]%string /\
  Buffer.contents (aof_buf (fst r)) = aof_frame cmd /\
  aof_frame cmd <> [].
Proof.
  do 6 (split; [vm_compute; reflexivity|]). vm_compute. discriminate.
Qed.

(** C1, as amended: for every mutating command (set, del, pexpire, zadd,
    zrem) dispatched with AOF enabled, the frame of the command is
    appended to the log buffer before the handler runs and whatever the
    handler replies; the handler leaves the log buffer alone, and the
    flush that follows takes from the front of the buffer only the bytes
    that [write] accepted. *)
Theorem C1_frame_logged_before_execution {libc : Libc}
    (st : State) (env : Env) (cmd : list string) (out : Buffer.t) :
  aof_enabled st = true ->
  fifo (aof_buf st) ->
  mutating cmd = true ->
  exists handler k,
    do_request st env cmd out = logged st env cmd out handler /\
    (forall s c o, same_log s (fst (handler s c o))) /\
    0 <= k <= Z.max 0 (write_accept env) /\
    Buffer.contents (aof_buf (fst (do_request st env cmd out))) =
      drop (Z.to_nat k) (Buffer.contents (aof_buf st) ++ aof_frame cmd).
Proof.
  intros Hen Hf Hm.
  destruct (do_request_mutating st env cmd out Hm) as (handler & Hreq & Hsame).
  exists handler. rewrite Hreq. unfold logged. rewrite Hen.
  set (st1 := set_aof_buf st (aof_write_command (aof_buf st) cmd)).
  pose proof (Hsame st1 cmd out) as (Hbuf & Hen2 & _).
  destruct (handler st1 cmd out) as [st2 out1]. simpl in Hbuf, Hen2.
  assert (Hf2 : fifo (aof_buf st2))
    by (rewrite Hbuf; subst st1; simpl; now apply aof_write_command_fifo).
  destruct (aof_flush_and_sync_contents st2 env Hf2) as (k & Hk & Hc & _).
  assert (Hen3 : aof_enabled st2 = true) by (rewrite Hen2; exact Hen).
  exists k. rewrite Hen3. cbv beta iota zeta. simpl fst.
  split; [reflexivity|]. split; [exact Hsame|]. split; [lia|].
  rewrite Hc, Hbuf.
  subst st1. simpl aof_buf.
  rewrite aof_write_command_contents by apply Hf. reflexivity.
Qed.

Lemma C1_frame_logged_witness :
  let cmd := ["zadd"; "z"; "oops"; "a"]%string in
  exists handler k,
    do_request (@init_state int_libc) (env_at 0) cmd Buffer.default
      = logged init_state (env_at 0) cmd Buffer.default handler /\
    (forall s c o, same_log s (fst (handler s c o))) /\
    0 <= k <= Z.max 0 (write_accept (env_at 0)) /\
    Buffer.contents
      (aof_buf (fst (do_request (@init_state int_libc) (env_at 0) cmd Buffer.default))) =
      drop (Z.to_nat k) (Buffer.contents (aof_buf (@init_state int_libc)) ++ aof_frame cmd).
Proof.
  apply (@C1_frame_logged_before_execution int_libc).
  - reflexivity.
  - apply fifo_new. lia.
  - reflexivity.
Defined.

(** * C9: set and the TTL *)

Lemma aof_flush_and_sync_store {libc : Libc} (st : State) (env : Env) :
  db (aof_flush_and_sync st env) = db st /\ heap (aof_flush_and_sync st env) = heap st.
Proof.
  unfold aof_flush_and_sync.
  destruct (_ || _); [split; reflexivity|].
  destruct (Buffer.get_continuous_data _ _).
  destruct (_ <? 0); [split; reflexivity|].
  destruct (_ >? 1000); split; reflexivity.
Qed.

Lemma logged_store {libc : Libc} st env cmd out handler :
  (forall s, db (set_aof_buf s (aof_write_command (aof_buf s) cmd)) = db s) ->
  let st1 := if aof_enabled st
             then set_aof_buf st (aof_write_command (aof_buf st) cmd) else st in
  db (fst (logged st env cmd out handler)) = db (fst (handler st1 cmd out)) /\
  heap (fst (logged st env cmd out handler)) = heap (fst (handler st1 cmd out)).
Proof.
  intros _ st1. unfold logged. fold st1.
  destruct (handler st1 cmd out) as [st2 out1]. simpl.
  destruct (aof_enabled st2); [apply aof_flush_and_sync_store | split; reflexivity].
Qed.

Lemma do_set_store {libc : Libc} (st : State) (cmd : list string) (out : Buffer.t) :
  heap (fst (do_set st cmd out)) = heap st /\
  db (fst (do_set st cmd out)) =
    match db st !! arg cmd 1 with
    | Some ent =>
      if negb (type ent =? T_STR) then db st
      else <[arg cmd 1 := set_str ent (arg cmd 2)]> (db st)
    | None =>
      <[arg cmd 1 := set_str (set_key (entry_new T_STR) (arg cmd 1)) (arg cmd 2)]> (db st)
    end.
Proof.
  unfold do_set. destruct (db st !! arg cmd 1) as [ent|];
    [destruct (negb _)|]; split; reflexivity.
Qed.

(** C9: [set] on a key that holds a string replaces the string only; no
    [set] changes the TTL heap or the [heap_idx] of an Entry that was in
    the store. *)
Theorem C9_set_keeps_ttl {libc : Libc}
    (st : State) (env : Env) (cmd : list string) (out : Buffer.t) :
  cmd_is cmd 3 "set" = true ->
  let st' := fst (do_request st env cmd out) in
  heap st' = heap st /\
  (forall k e, db st !! k = Some e ->
     exists e', db st' !! k = Some e' /\ heap_idx e' = heap_idx e) /\
  (forall ent, db st !! arg cmd 1 = Some ent -> type ent = T_STR ->
     db st' = <[arg cmd 1 := set_str ent (arg cmd 2)]> (db st) /\
     set_str ent (arg cmd 2) =
       {| key := key ent; heap_idx := heap_idx ent; type := type ent;
          str := arg cmd 2; zset := zset ent |}).
Proof.
  intros Hcmd st'. subst st'. rewrite do_request_set by assumption.
  destruct (logged_store st env cmd out do_set (fun _ => eq_refl)) as [Hdb Hheap].
  rewrite Hdb, Hheap. clear Hdb Hheap.
  set (st1 := if aof_enabled st then _ else st).
  assert (Hdb1 : db st1 = db st) by (subst st1; destruct (aof_enabled st); reflexivity).
  assert (Hheap1 : heap st1 = heap st) by (subst st1; destruct (aof_enabled st); reflexivity).
  destruct (do_set_store st1 cmd out) as [Hh Hd]. rewrite Hh, Hd, Hdb1, Hheap1.
  split; [reflexivity|]. split.
  - intros k e Hk. destruct (db st !! arg cmd 1) as [ent|] eqn:Hent.
    + destruct (negb _); [eauto|].
      destruct (decide (arg cmd 1 = k)) as [<-|Hne].
      * rewrite lookup_insert_eq. exists (set_str ent (arg cmd 2)).
        split; [reflexivity|]. simpl. congruence.
      * rewrite lookup_insert_ne by assumption. eauto.
    + destruct (decide (arg cmd 1 = k)) as [<-|Hne]; [congruence|].
      rewrite lookup_insert_ne by assumption. eauto.
  - intros ent Hent Hty. split; [|reflexivity]. rewrite Hent, Hty. reflexivity.
Qed.

Lemma C9_set_keeps_ttl_witness :
  let cmd := ["set"; "k"; "w"]%string in
  let st := fst (do_request string_store (env_at 0) ["pexpire"; "k"; "50"]%string Buffer.default) in
  let st' := fst (do_request st (env_at 10) cmd Buffer.default) in
  heap st' = heap st /\
  (forall k e, db st !! k = Some e ->
     exists e', db st' !! k = Some e' /\ heap_idx e' = heap_idx e).
Proof.
  intros cmd st st'.
  destruct (@C9_set_keeps_ttl int_libc st (env_at 10) cmd Buffer.default) as (H1 & H2 & _).
  - reflexivity.
  - split; [exact H1 | exact H2].
Defined.

(** The TTL that [pexpire] gave the key before the second [set] still
    fires: once the deadline has passed, [process_timers] removes the key. *)
Example C9_expiry_still_fires :
  heap ttl_store = [{| val := 50; ref := "k" |}] /\
  (@str int_libc <$> (db ttl_store !! "k"%string)) = Some "w"%string /\
  store_view ttl_store = [("k", 0, T_STR, "w", [])]%string /\
  (store_view <$> process_timers ttl_store (env_at 100)) = Finished [].
Proof.
  do 3 (split; [vm_compute; reflexivity|]). vm_compute. reflexivity.
Qed.

(** * C4: the TTL loop of process_timers *)

Lemma heap_up_length (fuel : nat) (a : list HeapItem) (pos : Z) (t : HeapItem) :
  length (fst (heap_up fuel a pos t)) = length a.
Proof.
  revert a pos. induction fuel as [|f IH]; intros a pos; simpl.
  - unfold heap_set. now rewrite length_insert.
  - destruct (_ && _).
    + specialize (IH (heap_set a pos (heap_get a (heap_parent pos))) (heap_parent pos)).
      destruct (heap_up f _ _ t). simpl in *. rewrite IH.
      unfold heap_set. now rewrite length_insert.
    + simpl. unfold heap_set. now rewrite length_insert.
Qed.

Lemma heap_down_length (fuel : nat) (a : list HeapItem) (pos len : Z) (t : HeapItem) :
  length (fst (heap_down fuel a pos len t)) = length a.
Proof.
  revert a pos. induction fuel as [|f IH]; intros a pos; simpl.
  - unfold heap_set. now rewrite length_insert.
  - destruct (if _ && _ then _ else _) as [min_pos min_val].
    destruct (_ =? pos).
    + simpl. unfold heap_set. now rewrite length_insert.
    + match goal with
      | |- context [heap_down f ?a' ?p len t] =>
        specialize (IH a' p); destruct (heap_down f a' p len t)
      end.
      simpl in *. rewrite IH. unfold heap_set. now rewrite length_insert.
Qed.

Lemma heap_update_length (a : list HeapItem) (pos len : Z) :
  length (fst (heap_update a pos len)) = length a.
Proof.
  unfold heap_update. destruct (_ && _); [apply heap_up_length | apply heap_down_length].
Qed.

Lemma heap_delete_length (a : list HeapItem) (pos : Z) :
  length (fst (heap_delete a pos)) = Nat.pred (length a).
Proof.
  unfold heap_delete.
  assert (Hl : length (removelast (heap_set a pos (List.last a (mkHeapItem 0 EmptyString))))
               = Nat.pred (length a)).
  { destruct a as [|x a]; [reflexivity|].
    rewrite removelast_firstn_len, length_take.
    unfold heap_set. rewrite length_insert. simpl. lia. }
  destruct (_ <? _); [now rewrite heap_update_length | exact Hl].
Qed.

Lemma size_write_refs {libc : Libc} (d : gmap string Entry) (ws : list (string * Z)) :
  size (write_refs d ws) = size d.
Proof.
  unfold write_refs. revert d. induction ws as [|w ws IH]; intros d; simpl; [reflexivity|].
  rewrite IH. rewrite <- !(size_dom (D := gset string)). now rewrite dom_alter_L.
Qed.

Lemma entry_del_size {libc : Libc} (st : State) (ent : Entry) :
  size (db (entry_del st ent)) = size (db st).
Proof.
  unfold entry_del, entry_set_ttl.
  destruct (_ && _); [|reflexivity].
  destruct (heap_delete _ _). simpl. apply size_write_refs.
Qed.

Lemma entry_del_heap {libc : Libc} (st : State) (ent : Entry) :
  length (heap (entry_del st ent)) =
    if heap_idx ent =? size_max then length (heap st) else Nat.pred (length (heap st)).
Proof.
  unfold entry_del, entry_set_ttl. simpl.
  destruct (heap_idx ent =? size_max); simpl; [reflexivity|].
  pose proof (heap_delete_length (heap st) (heap_idx ent)) as H.
  destruct (heap_delete _ _). simpl in *. exact H.
Qed.

Lemma entry_del_db_absent {libc : Libc} (st : State) (ent : Entry) (k : string) :
  db st !! k = None -> db (entry_del st ent) !! k = None.
Proof.
  intros Hk. unfold entry_del, entry_set_ttl.
  destruct (_ && _); [|assumption].
  destruct (heap_delete _ _) as [a ws]. simpl.
  unfold write_refs. revert Hk. generalize (db st).
  induction ws as [|w ws IH]; intros d Hk; simpl; [assumption|].
  apply IH. rewrite lookup_alter. case_decide; [subst; now rewrite Hk | assumption].
Qed.

Lemma entry_del_heap_same {libc : Libc} (st : State) (ent : Entry) :
  heap_idx ent = size_max -> heap (entry_del st ent) = heap st.
Proof.
  intros H. unfold entry_del, entry_set_ttl. rewrite H. reflexivity.
Qed.

(** The loop removes at most 2001 - nworks keys. *)
Lemma ttl_loop_bound {libc : Libc} (fuel : nat) (st st' : State) (now nworks : Z) :
  ttl_loop fuel st now nworks = Finished st' ->
  0 <= nworks <= k_max_works ->
  Z.of_nat (size (db st)) <= Z.of_nat (size (db st')) + (k_max_works + 1 - nworks).
Proof.
  revert st nworks. induction fuel as [|f IH]; intros st nworks Hrun Hn; simpl in Hrun.
  - discriminate.
  - destruct (heap st) as [|top rest]; [inversion Hrun; subst; lia|].
    destruct (val top <? now); [|inversion Hrun; subst; lia].
    destruct (db st !! ref top) as [ent|] eqn:Hent; [|discriminate].
    assert (Hsz : Z.of_nat (size (db st)) =
                  Z.of_nat (size (db (entry_del (set_db st (delete (ref top) (db st))) ent))) + 1).
    { rewrite entry_del_size. simpl.
      rewrite map_size_delete_Some by eauto.
      assert (size (db st) <> 0%nat); [|lia].
      intros Hz. apply map_size_empty_iff in Hz. rewrite Hz in Hent.
      now rewrite lookup_empty in Hent. }
    rewrite Z.geb_leb in Hrun.
    destruct (Z.leb_spec k_max_works nworks).
    + inversion Hrun; subst. lia.
    + apply IH in Hrun; lia.
Qed.

Lemma process_timers_bound {libc : Libc} (st st' : State) (env : Env) :
  process_timers st env = Finished st' ->
  Z.of_nat (size (db st)) <= Z.of_nat (size (db st')) + (k_max_works + 1).
Proof.
  unfold process_timers. intros H. apply ttl_loop_bound in H; simpl in *; unfold k_max_works in *; lia.
Qed.

(** The fuel [process_timers] gives the loop is enough. *)
Lemma ttl_loop_fuel {libc : Libc} (fuel : nat) (st : State) (now nworks : Z) :
  (2 * length (heap st) + 2 <= fuel)%nat
  \/ ((1 <= fuel)%nat /\ match heap st with
                         | top :: _ => db st !! ref top = None
                         | [] => True
                         end) ->
  ttl_loop fuel st now nworks <> OutOfFuel.
Proof.
  revert st nworks. induction fuel as [|f IH]; intros st nworks Hf; simpl.
  - destruct Hf as [Hf | [Hf _]]; lia.
  - destruct (heap st) as [|top rest] eqn:Hheap; [discriminate|].
    destruct (val top <? now); [|discriminate].
    destruct (db st !! ref top) as [ent|] eqn:Hent.
    2: discriminate.
    destruct Hf as [Hf | [_ Hf]]; [|congruence].
    destruct (nworks >=? k_max_works); [discriminate|].
    apply IH.
    pose proof (entry_del_heap (set_db st (delete (ref top) (db st))) ent) as Hlen.
    simpl in Hlen. rewrite Hheap in Hlen. simpl in Hlen, Hf.
    destruct (Z.eqb_spec (heap_idx ent) size_max) as [Hidx|Hidx].
    + right. split; [lia|].
      rewrite entry_del_heap_same by assumption. simpl. rewrite Hheap.
      apply entry_del_db_absent. simpl. apply lookup_delete_eq.
    + left. lia.
Qed.

Lemma process_timers_terminates {libc : Libc} (st : State) (env : Env) :
  process_timers st env <> OutOfFuel.
Proof. unfold process_timers. apply ttl_loop_fuel. left. simpl. lia. Qed.

(** C4: a store of 2005 keys, all in the TTL heap with a deadline that has
    passed, loses 2001 of them, not 2000, in one call of [process_timers]
    and keeps 4: the loop leaves after the deletion that finds the counter
    at 2000. *)
Theorem C4_process_timers_removes_2001 :
  (let st := expiring_store 2005 in
   (length (store_view st),
    length (heap st),
    forallb (fun h => val h <? now_ms (env_at 1)) (heap st),
    (fun st' => length (store_view st')) <$> process_timers st (env_at 1)))
  = (2005%nat, 2005%nat, true, Finished 4%nat).
Proof. vm_compute. reflexivity. Qed.

(** * C5: replay of the log *)

(** C5: the log of one complete record [set k v] replays to a store that
    holds [k]; with the truncated record behind it, the strings read
    before the end of the file, [del] and [k], are dispatched as a
    command, and the replay ends with an empty store. *)
Theorem C5_truncated_record_is_dispatched :
  (store_view <$> load_aof_file init_state (fun _ => env_at 0) (Some log_complete))
    = Finished [("k", size_max, T_STR, "v", [])]%string /\
  aof_read_strs 3 (drop (length log_complete + 4) log_truncated) []
    = (["del"; "k"]%string, []) /\
  (store_view <$> load_aof_file init_state (fun _ => env_at 0) (Some log_truncated))
    = Finished [].
Proof.
  do 2 (split; [vm_compute; reflexivity|]). vm_compute. reflexivity.
Qed.

(** * C2: zquery *)

Ltac conj := repeat match goal with |- _ /\ _ => split end.

Lemma append_head_capacity (b : Buffer.t) (src : list ascii) :
  Buffer.wf b ->
  Buffer.head (Buffer.append b src) = 0
  \/ (Buffer.head (Buffer.append b src) = Buffer.head b /\
      Buffer.capacity (Buffer.append b src) = Buffer.capacity b /\
      Z.of_nat (length src) + Buffer._size b <= Buffer.capacity b).
Proof.
  intros Hwf. unfold Buffer.append.
  destruct (Z.of_nat (length src) + Buffer._size b >? Buffer.capacity b) eqn:Hgrow.
  - left.
    match goal with |- Buffer.head (if ?c then _ else _) = _ => destruct c end;
      reflexivity.
  - right. rewrite Z.gtb_ltb in Hgrow. apply Z.ltb_ge in Hgrow.
    match goal with |- Buffer.head (if ?c then _ else _) = _ /\ _ => destruct c end;
      simpl; auto.
Qed.

Lemma in_place_front (b : Buffer.t) (p : Z) :
  Buffer.wf b -> Buffer.head b = 0 -> 0 <= p -> p + 4 <= Buffer._size b ->
  in_place b p.
Proof.
  intros [Hh Hs Ht _] H0 Hp Hfit. unfold in_place, Buffer.index.
  rewrite H0, Z.add_0_l, Z.mod_small by lia. lia.
Qed.

Lemma append_in_place (b : Buffer.t) (src : list ascii) (p : Z) :
  Buffer.wf b -> 0 <= p -> p + 4 <= Buffer._size b ->
  in_place b p -> in_place (Buffer.append b src) p.
Proof.
  intros Hwf Hp Hfit Hin.
  destruct (append_head_capacity b src Hwf) as [H0 | (Hh & Hc & _)].
  - apply in_place_front; auto; [now apply append_wf | rewrite append_size; lia].
  - unfold in_place, Buffer.index in *. now rewrite Hh, Hc.
Qed.

Lemma out_begin_arr_spec (out : Buffer.t) :
  Buffer.wf out -> 
  let '(out1, ctx) := out_begin_arr out in
  Buffer.wf out1 /\
  Buffer.contents out1 = Buffer.contents out ++ enc_arr 0 /\
  ctx = Buffer._size out + 1 /\
  Buffer._size out1 = Buffer._size out + 5 /\
  (arr_count_in_place out -> in_place out1 ctx).
Proof.
  intros Hwf. unfold out_begin_arr.
  fold (out_arr out 0).
  assert (Hsz : Buffer._size (out_arr out 0) = Buffer._size out + 5).
  { unfold out_arr, buf_append_u32, buf_append_u8, Buffer.append_u32, Buffer.append_u8.
    rewrite !append_size, !length_le_bytes. lia. }
  pose proof Hwf as [Hh Hs Ht _].
  unfold Buffer.size. rewrite Hsz, size_sub_le by lia.
  split; [now apply out_arr_wf|].
  split; [now apply out_arr_contents|].
  split; [lia|]. split; [reflexivity|].
  intros Hplace.
  unfold out_arr, buf_append_u32, buf_append_u8, Buffer.append_u32, Buffer.append_u8 in *.
  set (b1 := Buffer.append out (le_bytes 1 TAG_ARR)) in *.
  assert (Hwf1 : Buffer.wf b1) by now apply append_wf.
  assert (Hsz1 : Buffer._size b1 = Buffer._size out + 1)
    by (subst b1; rewrite append_size, length_le_bytes; lia).
  destruct (append_head_capacity b1 (le_bytes 4 0) Hwf1) as [H0 | (Hh2 & Hc2 & Hfit2)].
  { apply in_place_front; auto; [now apply append_wf | lia | rewrite Hsz; lia]. }
  destruct (append_head_capacity out (le_bytes 1 TAG_ARR) Hwf) as [H0 | (Hh1 & Hc1 & Hfit1)].
  { apply in_place_front; auto;
      [now apply append_wf | rewrite Hh2; exact H0 | lia | rewrite Hsz; lia]. }
  fold b1 in Hh1, Hc1.
  rewrite length_le_bytes in Hfit2.
  destruct Hplace as [Hgrow | Hin]; [lia|].
  unfold in_place, Buffer.index in *.
  replace (Buffer._size out + 5 - 4) with (Buffer._size out + 1) by lia.
  now rewrite Hh2, Hc2, Hh1, Hc1.
Qed.

(** The number of pairs the output loop writes from counter [n]. *)
Lemma zquery_emit_spec {libc : Libc} (nodes : list (string * dbl)) (n limit : Z)
    (out : Buffer.t) (p : Z) :
  Buffer.wf out -> 0 <= p -> p + 4 <= Buffer._size out ->
  let pairs := take (Z.to_nat ((limit - n + 1) / 2)) nodes in
  let '(out', n') := zquery_emit nodes n limit out in
  Buffer.wf out' /\
  Buffer.contents out' = Buffer.contents out ++ concat (map enc_pair pairs) /\
  n' = n + 2 * Z.of_nat (length pairs) /\
  Buffer._size out <= Buffer._size out' /\
  (in_place out p -> in_place out' p).
Proof.
  revert n out. induction nodes as [|z rest IH]; intros n out Hwf Hp Hfit; simpl.
  - rewrite take_nil. simpl. rewrite app_nil_r. conj; auto; lia.
  - destruct (Z.ltb_spec n limit).
    + set (out1 := out_dbl (out_str out (fst z)) (snd z)).
      assert (Hwf1 : Buffer.wf out1) by (subst out1; now apply out_dbl_wf, out_str_wf).
      assert (Hc1 : Buffer.contents out1 = Buffer.contents out ++ enc_pair z).
      { subst out1. rewrite out_dbl_contents, out_str_contents by (auto using out_str_wf).
        unfold enc_pair. now rewrite <- app_assoc. }
      assert (Hs1 : Buffer._size out <= Buffer._size out1).
      { subst out1. unfold out_dbl, out_str, buf_append, buf_append_u32, buf_append_u8,
          Buffer.append_u32, Buffer.append_u8.
        rewrite !append_size. lia. }
      assert (Hin1 : in_place out p -> in_place out1 p).
      { intros Hin. subst out1. unfold out_dbl, out_str, buf_append, buf_append_u32, buf_append_u8,
          Buffer.append_u32, Buffer.append_u8.
        repeat (apply append_in_place;
                [repeat apply append_wf; assumption | assumption
                 | rewrite ?append_size; lia |]).
        assumption. }
      specialize (IH (n + 2) out1 Hwf1 Hp ltac:(lia)).
      destruct (zquery_emit rest (n + 2) limit out1) as [out' n'].
      destruct IH as (Hwf' & Hc' & Hn' & Hs' & Hin').
      assert (Hk : Z.to_nat ((limit - n + 1) / 2)
                   = S (Z.to_nat ((limit - (n + 2) + 1) / 2))).
      { replace (limit - n + 1) with ((limit - (n + 2) + 1) + 1 * 2) by lia.
        rewrite Z.div_add by lia.
        assert (0 <= (limit - (n + 2) + 1) / 2) by (apply Z.div_pos; lia).
        lia. }
      rewrite Hk. simpl.
      conj; auto; try lia.
      rewrite Hc', Hc1. now rewrite <- app_assoc.
    + assert (Hk : Z.to_nat ((limit - n + 1) / 2) = 0%nat).
      { assert ((limit - n + 1) / 2 <= 0); [|lia].
        destruct (Z.eq_dec limit n) as [->|].
        - replace (n - n + 1) with 1 by lia. reflexivity.
        - apply Z.div_le_upper_bound; lia. }
      rewrite Hk. simpl. rewrite app_nil_r. conj; auto; lia.
Qed.

(** * The order of the sorted sets *)

Lemma string_ltb_asym (a b : string) :
  String.ltb a b = true -> String.ltb b a = false.
Proof.
  unfold String.ltb. rewrite (String.compare_antisym a b).
  destruct (b ?= a)%string; simpl; congruence.
Qed.

Lemma string_ltb_negtrans (a b c : string) :
  String.ltb a b = false -> String.ltb b c = false -> String.ltb a c = false.
Proof.
  intros Hab Hbc. destruct (String.ltb a c) eqn:Hac; [|reflexivity].
  exfalso. unfold String.ltb in *.
  destruct (a ?= b)%string eqn:Eab; try discriminate.
  - apply String.compare_eq_iff in Eab. subst b.
    destruct (a ?= c)%string; discriminate.
  - assert (Hba : String_as_OT.lt b a).
    { apply String_as_OT.cmp_lt. unfold String_as_OT.cmp.
      rewrite String.compare_antisym, Eab. reflexivity. }
    assert (Hac' : String_as_OT.lt a c).
    { apply String_as_OT.cmp_lt. unfold String_as_OT.cmp.
      destruct (a ?= c)%string; congruence. }
    pose proof (String_as_OT.lt_trans _ _ _ Hba Hac') as H.
    apply String_as_OT.cmp_lt in H. unfold String_as_OT.cmp in H.
    rewrite H in Hbc. discriminate.
Qed.

Section ZOrder.
Context {libc : Libc} {ord : DblOrder libc}.

Lemma zlt_asym (a b : string * dbl) :
  isnan (snd a) = false -> isnan (snd b) = false ->
  zlt a b = true -> zlt b a = false.
Proof.
  intros Ha Hb. unfold zlt, zless.
  rewrite (dbl_eqb_ltb (snd a) (snd b)), (dbl_eqb_ltb (snd b) (snd a)) by assumption.
  pose proof (dbl_ltb_asym (snd a) (snd b) Ha Hb) as H1.
  pose proof (string_ltb_asym (fst a) (fst b)) as H2.
  destruct (dbl_ltb (snd a) (snd b)), (dbl_ltb (snd b) (snd a)); simpl; auto.
Qed.

Lemma zlt_negtrans (a b c : string * dbl) :
  isnan (snd a) = false -> isnan (snd b) = false -> isnan (snd c) = false ->
  zlt a b = false -> zlt b c = false -> zlt a c = false.
Proof.
  intros Ha Hb Hc. unfold zlt, zless.
  rewrite (dbl_eqb_ltb (snd a) (snd b)), (dbl_eqb_ltb (snd b) (snd c)),
    (dbl_eqb_ltb (snd a) (snd c)) by assumption.
  pose proof (dbl_ltb_negtrans (snd a) (snd b) (snd c) Ha Hb Hc) as T1.
  pose proof (dbl_ltb_negtrans (snd c) (snd b) (snd a) Hc Hb Ha) as T2.
  pose proof (dbl_ltb_negtrans (snd b) (snd c) (snd a) Hb Hc Ha) as T3.
  pose proof (dbl_ltb_negtrans (snd c) (snd a) (snd b) Hc Ha Hb) as T4.
  pose proof (dbl_ltb_asym (snd a) (snd c) Ha Hc) as A1.
  pose proof (string_ltb_negtrans (fst a) (fst b) (fst c)) as S1.
  destruct (dbl_ltb (snd a) (snd b)), (dbl_ltb (snd b) (snd a)),
    (dbl_ltb (snd b) (snd c)), (dbl_ltb (snd c) (snd b)),
    (dbl_ltb (snd a) (snd c)), (dbl_ltb (snd c) (snd a));
    simpl; intros; auto; try discriminate;
    try (specialize (T1 eq_refl eq_refl)); try (specialize (T2 eq_refl eq_refl));
    try (specialize (T3 eq_refl eq_refl)); try (specialize (T4 eq_refl eq_refl));
    try (specialize (A1 eq_refl)); congruence.
Qed.

Lemma zset_place_Forall (P : string * dbl -> Prop) (z : string * dbl) (zs : ZSet) :
  P z -> Forall P zs -> Forall P (zset_place z zs).
Proof.
  intros Hz Hzs. induction Hzs as [|z' zs' Hz' Hzs' IH]; simpl.
  - constructor; [assumption | constructor].
  - destruct (zless z' (snd z) (fst z)); repeat constructor; assumption.
Qed.

Lemma zset_place_sorted (z : string * dbl) (zs : ZSet) :
  zsorted zs -> isnan (snd z) = false -> zsorted (zset_place z zs).
Proof.
  intros [Hs Hn] Hz. split; [|now apply zset_place_Forall].
  induction Hs as [|z' zs' Hs' IH Hall]; simpl.
  - repeat constructor.
  - apply Forall_cons_iff in Hn as [Hz' Hn'].
    destruct (zless z' (snd z) (fst z)) eqn:Hlt.
    + constructor; [now apply IH|].
      apply zset_place_Forall; [|assumption].
      unfold zle. now apply (zlt_asym z' z).
    + constructor; [now constructor|].
      constructor; [exact Hlt|].
      rewrite List.Forall_forall in Hall, Hn' |- *. intros w Hw.
      unfold zle. apply (zlt_negtrans w z' z); auto.
      apply (Hall w Hw).
Qed.

Lemma StronglySorted_filter {A : Type} (R : A -> A -> Prop) (f : A -> bool)
    (l : list A) :
  StronglySorted R l -> StronglySorted R (List.filter f l).
Proof.
  induction 1 as [|a l Hs IH Hall]; simpl; [constructor|].
  destruct (f a); [|assumption].
  constructor; [assumption|].
  rewrite List.Forall_forall in *. intros x Hx. apply Hall.
  apply filter_In in Hx. tauto.
Qed.

Lemma StronglySorted_drop {A : Type} (R : A -> A -> Prop) (n : nat) (l : list A) :
  StronglySorted R l -> StronglySorted R (drop n l).
Proof.
  intros Hs. revert n. induction Hs as [|a l Hs IH Hall]; intros [|n]; simpl;
    try constructor; auto.
Qed.

Lemma StronglySorted_take {A : Type} (R : A -> A -> Prop) (n : nat) (l : list A) :
  StronglySorted R l -> StronglySorted R (take n l).
Proof.
  intros Hs. revert n. induction Hs as [|a l Hs IH Hall]; intros [|n]; simpl;
    try constructor; auto.
  now apply Forall_take.
Qed.

Lemma zset_delete_sorted (zs : ZSet) (name : string) :
  zsorted zs -> zsorted (zset_delete zs name).
Proof.
  intros [Hs Hn]. split.
  - now apply StronglySorted_filter.
  - rewrite List.Forall_forall in *. intros x Hx. apply Hn.
    unfold zset_delete in Hx. apply filter_In in Hx. tauto.
Qed.

Lemma zset_insert_sorted (zs : ZSet) (name : string) (score : dbl) :
  zsorted zs -> isnan score = false -> zsorted (snd (zset_insert zs name score)).
Proof.
  intros Hs Hn. unfold zset_insert.
  destruct (zset_lookup zs name); simpl;
    apply zset_place_sorted; auto using zset_delete_sorted.
Qed.

Lemma zquery_from_sorted (zs : ZSet) (score : dbl) (name : string)
    (offset : Z) (k : nat) :
  StronglySorted zle zs ->
  StronglySorted zle (take k (zquery_from zs score name offset)).
Proof.
  intros Hs. apply StronglySorted_take. unfold zquery_from, znodes_from.
  destruct (znode_offset _ _ _); [now apply StronglySorted_drop | constructor].
Qed.

End ZOrder.

Lemma str2dbl_not_nan {libc : Libc} (s : string) (v : dbl) :
  str2dbl s = Some v -> isnan v = false.
Proof.
  unfold str2dbl. destruct (strtod (c_str s)) as [x n].
  destruct (n =? strlen s); simpl; [|discriminate].
  destruct (isnan x) eqn:Hx; simpl; [discriminate|].
  intros H. inversion H; subst. exact Hx.
Qed.

(** The order laws hold in the example library. *)
Global Instance int_order : DblOrder int_libc.
Proof.
  split; simpl; intros.
  - destruct (Z.eqb_spec a b), (Z.ltb_spec a b), (Z.ltb_spec b a); simpl; lia.
  - apply Z.ltb_ge. apply Z.ltb_lt in H1. lia.
  - apply Z.ltb_ge. apply Z.ltb_ge in H2, H3. lia.
Qed.

Lemma patch_count (pre old new rest : list ascii) (tag : ascii) :
  length old = 4%nat -> length new = 4%nat ->
  take (length pre + 1) (pre ++ [tag] ++ old ++ rest) ++ new
    ++ drop (length pre + 1 + length new) (pre ++ [tag] ++ old ++ rest)
  = pre ++ [tag] ++ new ++ rest.
Proof.
  intros Ho Hn.
  rewrite take_app_ge, drop_app_ge by lia.
  replace (length pre + 1 - length pre)%nat with 1%nat by lia.
  replace (length pre + 1 + length new - length pre)%nat with (1 + length old)%nat by lia.
  simpl take. rewrite <- app_assoc. do 2 f_equal.
  change ([tag] ++ old ++ rest) with (tag :: (old ++ rest)).
  simpl drop. now rewrite drop_app_length.
Qed.

Lemma zset_seekge_spec {libc : Libc} (zs : ZSet) (score : dbl) (name : string) :
  match zset_seekge zs score name with
  | Some r => 0 <= r < Z.of_nat (length zs) /\ drop (Z.to_nat r) zs = seek_ge zs score name
  | None => seek_ge zs score name = []
  end.
Proof.
  induction zs as [|z zs IH]; simpl; [reflexivity|].
  destruct (zless z score name).
  - destruct (zset_seekge zs score name) as [r|]; [|assumption].
    destruct IH as [Hr Hd]. split; [lia|].
    replace (Z.to_nat (r + 1)) with (S (Z.to_nat r)) by lia. exact Hd.
  - split; [lia | reflexivity].
Qed.

Lemma zquery_from_skip {libc : Libc} (zs : ZSet) (score : dbl) (name : string)
    (offset : Z) :
  0 <= offset ->
  zquery_from zs score name offset = drop (Z.to_nat offset) (seek_ge zs score name).
Proof.
  intros Ho. unfold zquery_from.
  pose proof (zset_seekge_spec zs score name) as H.
  destruct (zset_seekge zs score name) as [r|]; simpl.
  - destruct H as [Hr <-]. rewrite drop_drop.
    destruct (Z.leb_spec 0 (r + offset)); [|lia].
    destruct (Z.ltb_spec (r + offset) (Z.of_nat (length zs))); simpl.
    + f_equal. lia.
    + symmetry. apply drop_ge. lia.
  - rewrite H. now rewrite drop_nil.
Qed.

Lemma expect_zset_holds {libc : Libc} (st : State) (k : string) (zs : ZSet) :
  holds_zset st k zs ->
  expect_zset st k <> ZNull /\ zset_at (expect_zset st k) = zs.
Proof.
  unfold expect_zset. intros [[Hk ->] | (ent & Hk & Hty & ->)]; rewrite Hk.
  - split; [discriminate | reflexivity].
  - rewrite Hty. simpl. split; [discriminate | reflexivity].
Qed.

Lemma do_zquery_bad_type {libc : Libc} st cmd out score offset limit ent :
  Buffer.wf out ->
  str2dbl (arg cmd 2) = Some score ->
  str2int (arg cmd 4) = Some offset ->
  str2int (arg cmd 5) = Some limit ->
  db st !! arg cmd 1 = Some ent -> type ent <> T_ZSET ->
  Buffer.contents (do_zquery st cmd out) =
    Buffer.contents out ++ enc_err ERR_BAD_TYP "expect zset".
Proof.
  intros Hwf Hs Ho Hl Hk Hty. unfold do_zquery, expect_zset.
  rewrite Hs, Ho, Hl, Hk.
  destruct (Z.eqb_spec (type ent) T_ZSET); [contradiction|].
  now apply out_err_contents.
Qed.

Lemma do_zquery_no_limit {libc : Libc} st cmd out score offset limit zs :
  Buffer.wf out ->
  str2dbl (arg cmd 2) = Some score ->
  str2int (arg cmd 4) = Some offset ->
  str2int (arg cmd 5) = Some limit ->
  holds_zset st (arg cmd 1) zs -> limit <= 0 ->
  Buffer.contents (do_zquery st cmd out) = Buffer.contents out ++ enc_arr 0.
Proof.
  intros Hwf Hs Ho Hl Hz Hlim. unfold do_zquery. rewrite Hs, Ho, Hl.
  destruct (expect_zset_holds st (arg cmd 1) zs Hz) as [Hne _].
  assert (E : (limit <=? 0) = true) by (apply Z.leb_le; lia).
  destruct (expect_zset st (arg cmd 1)); [contradiction | |];
    rewrite E; now apply out_arr_contents.
Qed.

Lemma do_zquery_pairs {libc : Libc} st cmd out score offset limit zs :
  Buffer.wf out ->
  str2dbl (arg cmd 2) = Some score ->
  str2int (arg cmd 4) = Some offset ->
  str2int (arg cmd 5) = Some limit ->
  holds_zset st (arg cmd 1) zs -> 0 < limit ->
  arr_count_in_place out ->
  let pairs :=
    take (Z.to_nat ((limit + 1) / 2)) (zquery_from zs score (arg cmd 3) offset) in
  Buffer.contents (do_zquery st cmd out) =
    Buffer.contents out ++ enc_arr (2 * Z.of_nat (length pairs))
    ++ concat (map enc_pair pairs).
Proof.
  intros Hwf Hs Ho Hl Hz Hlim Hplace pairs. unfold do_zquery. rewrite Hs, Ho, Hl.
  destruct (expect_zset_holds st (arg cmd 1) zs Hz) as [Hne Hat].
  assert (E : (limit <=? 0) = false) by (apply Z.leb_gt; lia).
  assert (Hgoal :
    Buffer.contents
      (let znode := znode_offset zs (zset_seekge zs score (arg cmd 3)) offset in
       let '(out1, ctx) := out_begin_arr out in
       let '(out2, n) := zquery_emit (znodes_from zs znode) 0 limit out1 in
       out_end_arr out2 ctx (u32 n)) =
    Buffer.contents out ++ enc_arr (2 * Z.of_nat (length pairs))
    ++ concat (map enc_pair pairs)).
  { cbv zeta.
    pose proof (out_begin_arr_spec out Hwf) as Hb.
    destruct (out_begin_arr out) as [out1 ctx].
    destruct Hb as (Hwf1 & Hc1 & Hctx & Hsz1 & Hin1). specialize (Hin1 Hplace).
    pose proof Hwf as [_ Hsz _ _].
    pose proof (zquery_emit_spec (znodes_from zs (znode_offset zs
                  (zset_seekge zs score (arg cmd 3)) offset)) 0 limit out1 ctx
                  Hwf1 ltac:(lia) ltac:(lia)) as He.
    rewrite Z.sub_0_r in He. fold (zquery_from zs score (arg cmd 3) offset) in He.
    fold pairs in He.
    fold (zquery_from zs score (arg cmd 3) offset).
    destruct (zquery_emit (zquery_from zs score (arg cmd 3) offset) 0 limit out1)
      as [out2 n].
    destruct He as (Hwf2 & Hc2 & Hn & Hsz2 & Hin2). specialize (Hin2 Hin1).
    unfold out_end_arr.
    rewrite write_at_contents;
      [| assumption | lia | rewrite length_le_bytes; lia
       | rewrite length_le_bytes; exact Hin2 ].
    rewrite Hc2, Hc1, le_bytes_u32, Hn, Z.add_0_l.
    rewrite <- !app_assoc.
    replace (Z.to_nat ctx) with (length (Buffer.contents out) + 1)%nat
      by (rewrite length_contents; lia).
    unfold enc_arr.
    change (le_bytes 1 TAG_ARR) with [byte_of_Z TAG_ARR].
    rewrite <- !app_assoc.
    apply patch_count; apply length_le_bytes. }
  destruct (expect_zset st (arg cmd 1)); [contradiction | |];
    rewrite E; simpl in Hat; subst zs; exact Hgoal.
Qed.

(** The [assert] of [out_end_arr] holds where [do_zquery] calls it. *)
Lemma out_end_arr_assert_holds {libc : Libc} (nodes : list (string * dbl))
    (limit : Z) (out : Buffer.t) :
  Buffer.wf out ->
  let '(out1, ctx) := out_begin_arr out in
  let '(out2, n) := zquery_emit nodes 0 limit out1 in
  out_end_arr_assert out2 ctx = true.
Proof.
  intros Hwf.
  pose proof (out_begin_arr_spec out Hwf) as Hb.
  destruct (out_begin_arr out) as [out1 ctx].
  destruct Hb as (Hwf1 & Hc1 & Hctx & Hsz1 & _).
  pose proof Hwf as [_ Hsz _ _].
  pose proof (zquery_emit_spec nodes 0 limit out1 ctx Hwf1 ltac:(lia) ltac:(lia)) as He.
  destruct (zquery_emit nodes 0 limit out1) as [out2 n].
  destruct He as (Hwf2 & Hc2 & _ & Hsz2 & _).
  unfold out_end_arr_assert. rewrite size_sub_le by lia.
  rewrite <- contents_at by lia.
  rewrite Hc2, Hc1, <- app_assoc.
  rewrite app_nth2 by (rewrite length_contents; lia).
  rewrite length_contents.
  replace (Z.to_nat (ctx - 1) - Z.to_nat (Buffer._size out))%nat with 0%nat by lia.
  reflexivity.
Qed.

(** C2, counterexample: with limit 0 on a key that holds a string the
    reply is ERR(BAD_TYP), not an empty ARR; and on the sorted set
    {(b, 1), (a, 2)}, whose two pairs are both at or above (1, ""), a
    query with limit 2 replies with an ARR of two elements, the one pair
    (b, 1). *)
Lemma C2_counterexample :
  let reply st cmd := Buffer.contents (snd (do_request st (env_at 0) cmd Buffer.default)) in
  reply string_store ["zquery"; "k"; "1"; ""; "0"; "0"]%string
    = enc_err ERR_BAD_TYP "expect zset" /\
  enc_err ERR_BAD_TYP "expect zset" <> enc_arr 0 /\
  store_view scenario4_store
    = [("z", size_max, T_ZSET, "", [("b", 1); ("a", 2)])]%string /\
  reply scenario4_store ["zquery"; "z"; "1"; ""; "0"; "2"]%string
    = enc_arr 2 ++ enc_str "b" ++ le_bytes 1 TAG_DBL ++ le_bytes 8 (binary64_of_int 1).
Proof.
  split; [vm_compute; reflexivity|].
  split; [vm_compute; discriminate|].
  split; vm_compute; reflexivity.
Qed.

(** C2, as amended: for every zquery command with a parseable score,
    offset and limit, the command leaves the state as it is and (a) if
    the key holds a value that is not a sorted set the reply is
    ERR(BAD_TYP), whatever the limit; otherwise, a key that does not
    exist standing for the empty sorted set, (b) if limit <= 0 the reply
    is an empty ARR, and (c) if limit > 0 the reply is a flattened ARR of
    the (name, score) pairs in the rank order of the set from the node
    reached by seeking the first pair >= (score, name) and moving by
    [offset], the loop ending when the number of array elements written,
    two for each pair, reaches [limit]: ceil(limit / 2) pairs at most;
    (d) for offset >= 0 that node is the first pair >= (score, name)
    after skipping [offset] pairs, and (e) the pairs written are in
    ascending (score, name) order, as the set is.  (c) is stated for a
    count field of the ARR that lies in one piece in the output buffer. *)
Theorem C2_zquery_reply {libc : Libc} (st : State) (env : Env) (cmd : list string)
    (out : Buffer.t) (score : dbl) (offset limit : Z) :
  cmd_is cmd 6 "zquery" = true ->
  Buffer.wf out ->
  str2dbl (arg cmd 2) = Some score ->
  str2int (arg cmd 4) = Some offset ->
  str2int (arg cmd 5) = Some limit ->
  let reply := Buffer.contents (snd (do_request st env cmd out)) in
  fst (do_request st env cmd out) = st /\
  (forall ent, db st !! arg cmd 1 = Some ent -> type ent <> T_ZSET ->
     reply = Buffer.contents out ++ enc_err ERR_BAD_TYP "expect zset") /\
  (forall zs, holds_zset st (arg cmd 1) zs -> limit <= 0 ->
     reply = Buffer.contents out ++ enc_arr 0) /\
  (forall zs, holds_zset st (arg cmd 1) zs -> 0 < limit -> arr_count_in_place out ->
     let pairs :=
       take (Z.to_nat ((limit + 1) / 2)) (zquery_from zs score (arg cmd 3) offset) in
     reply = Buffer.contents out ++ enc_arr (2 * Z.of_nat (length pairs))
             ++ concat (map enc_pair pairs)) /\
  (forall zs, 0 <= offset ->
     zquery_from zs score (arg cmd 3) offset
       = drop (Z.to_nat offset) (seek_ge zs score (arg cmd 3))) /\
  (forall zs k, StronglySorted zle zs ->
     StronglySorted zle (take k (zquery_from zs score (arg cmd 3) offset))).
Proof.
  intros Hcmd Hwf Hs Ho Hl reply. subst reply.
  rewrite do_request_zquery by assumption. simpl fst. simpl snd.
  split; [reflexivity|].
  split; [intros; eapply do_zquery_bad_type; eauto|].
  split; [intros; eapply do_zquery_no_limit; eauto|].
  split; [intros; eapply do_zquery_pairs; eauto|].
  split; [intros; now apply zquery_from_skip|].
  intros. now apply zquery_from_sorted.
Qed.

Lemma C2_zquery_reply_witness :
  let cmd := ["zquery"; "z"; "1"; ""; "0"; "3"]%string in
  let zs : @ZSet int_libc := [("b", 1); ("a", 2)]%string in
  let pairs := take (Z.to_nat ((3 + 1) / 2)) (@zquery_from int_libc zs 1 "" 0) in
  Buffer.contents (snd (do_request scenario4_store (env_at 0) cmd Buffer.default))
    = Buffer.contents Buffer.default ++ enc_arr (2 * Z.of_nat (length pairs))
      ++ concat (map (@enc_pair int_libc) pairs).
Proof.
  intros cmd zs pairs.
  destruct (@C2_zquery_reply int_libc scenario4_store (env_at 0) cmd Buffer.default 1 0 3)
    as (_ & _ & _ & H & _ & _).
  - reflexivity.
  - apply new_wf. lia.
  - reflexivity.
  - reflexivity.
  - reflexivity.
  - apply (H zs).
    + right.
      exists {| key := "z"; heap_idx := size_max; type := T_ZSET;
                str := ""; zset := zs |}.
      split; [reflexivity|]. split; reflexivity.
    + lia.
    + right. unfold in_place. vm_compute. discriminate.
Defined.

(** * Replay: the parts of C5 that hold *)

Lemma do_request_log_off {libc : Libc} st env cmd out :
  aof_enabled st = false ->
  aof_enabled (fst (do_request st env cmd out)) = false /\
  aof_buf (fst (do_request st env cmd out)) = aof_buf st.
Proof.
  intros Hoff.
  assert (Hlogged : forall handler,
            (forall s c o, same_log s (fst (handler s c o))) ->
            aof_enabled (fst (logged st env cmd out handler)) = false /\
            aof_buf (fst (logged st env cmd out handler)) = aof_buf st).
  { intros handler Hsame. unfold logged. rewrite Hoff.
    pose proof (Hsame st cmd out) as (Hb & He & _).
    destruct (handler st cmd out) as [st2 out1]. simpl in *.
    rewrite He, Hoff. simpl. split; congruence. }
  unfold do_request.
  repeat match goal with
  | |- context [if cmd_is ?c ?n ?s then _ else _] => destruct (cmd_is c n s)
  end;
  try (split; [exact Hoff | reflexivity]);
  try (apply Hlogged; first
         [ apply do_set_same_log | apply do_del_same_log | apply do_zadd_same_log
         | apply do_zrem_same_log | intros; apply do_expire_same_log ]).
  unfold do_aof_rewrite. rewrite Hoff. simpl. split; [exact Hoff | reflexivity].
Qed.

(** Commands dispatched during replay append nothing to the log buffer. *)
Lemma replay_keeps_log_off {libc : Libc} fuel st envs i f st' :
  aof_enabled st = false ->
  aof_replay fuel st envs i f = Finished st' ->
  aof_enabled st' = false /\ aof_buf st' = aof_buf st.
Proof.
  revert st i f. induction fuel as [|fuel IH]; intros st i f Hoff Hrun; simpl in Hrun.
  - discriminate.
  - destruct (fread_u32 f) as [[nstr|] f1]; [|inversion Hrun; subst; auto].
    destruct (nstr >? k_max_args); [inversion Hrun; subst; auto|].
    destruct (aof_read_strs (Z.to_nat nstr) f1 []) as [cmd f2].
    pose proof (do_request_log_off st (envs i) cmd Buffer.default Hoff) as [He Hb].
    destruct (do_request st (envs i) cmd Buffer.default) as [st1 o]. simpl in *.
    destruct (IH st1 (S i) f2 He Hrun) as [He' Hb']. split; congruence.
Qed.

(** A record that announces more than 200,000 strings ends the replay
    with the store as the records before it left it. *)
Lemma replay_bad_nstr_stops {libc : Libc} fuel st envs i f nstr f1 :
  fread_u32 f = (Some nstr, f1) -> nstr > k_max_args ->
  aof_replay (S fuel) st envs i f = Finished st.
Proof.
  intros Hread Hbig. simpl. rewrite Hread.
  replace (nstr >? k_max_args) with true by (symmetry; apply Z.gtb_gt; lia).
  reflexivity.
Qed.

Lemma fread_u32_length (f f1 : list ascii) (v : Z) :
  fread_u32 f = (Some v, f1) -> (length f1 + 4 = length f)%nat.
Proof.
  unfold fread_u32. destruct (Z.ltb_spec (Z.of_nat (length f)) 4); intros Hr;
    inversion Hr; subst. rewrite length_drop. lia.
Qed.

Lemma aof_read_strs_length (n : nat) (f : list ascii) (cmd : list string) :
  (length (snd (aof_read_strs n f cmd)) <= length f)%nat.
Proof.
  revert f cmd. induction n as [|n IH]; intros f cmd; simpl; [lia|].
  unfold fread_u32. destruct (Z.ltb_spec (Z.of_nat (length f)) 4); simpl; [lia|].
  unfold fread_str.
  destruct (Z.ltb_spec (Z.of_nat (length (drop 4 f))) (le_decode (take 4 f)));
    simpl; [lia|].
  etransitivity; [apply IH|]. rewrite !length_drop. lia.
Qed.

(** The fuel [load_aof_file] gives the replay is enough, and the replay
    has no assertion to fail. *)
Lemma aof_replay_finishes {libc : Libc} fuel st envs i f :
  (length f < fuel)%nat -> exists st', aof_replay fuel st envs i f = Finished st'.
Proof.
  revert st i f. induction fuel as [|fuel IH]; intros st i f Hf; [lia|]. simpl.
  destruct (fread_u32 f) as [[nstr|] f1] eqn:Hread; [|eauto].
  destruct (nstr >? k_max_args); [eauto|].
  pose proof (aof_read_strs_length (Z.to_nat nstr) f1 []) as Hlen.
  destruct (aof_read_strs (Z.to_nat nstr) f1 []) as [cmd f2].
  destruct (do_request st (envs i) cmd Buffer.default) as [st1 o].
  apply IH. apply fread_u32_length in Hread. simpl in Hlen. lia.
Qed.

Lemma load_aof_file_finishes {libc : Libc} st envs file :
  exists st', load_aof_file st envs file = Finished st'.
Proof.
  unfold load_aof_file. destruct (negb (aof_enabled st)); [eauto|].
  destruct file as [f|]; [|eauto].
  destruct (aof_replay_finishes (S (length f)) (set_aof_enabled st false) envs 0 f)
    as [st' ->]; [lia | eauto].
Qed.

(** * The log buffer stays a queue *)

Lemma aof_flush_and_sync_fifo {libc : Libc} (st : State) (env : Env) :
  fifo (aof_buf st) -> fifo (aof_buf (aof_flush_and_sync st env)).
Proof.
  intros Hf. unfold aof_flush_and_sync.
  destruct (negb (aof_enabled st) || Buffer.empty (aof_buf st) || (aof_fd st <? 0)) eqn:Hskip;
    [assumption|].
  apply orb_false_iff in Hskip as [Hskip _].
  apply orb_false_iff in Hskip as [_ Hne].
  unfold Buffer.empty in Hne. apply Z.eqb_neq in Hne.
  assert (Hs : 0 < Buffer._size (aof_buf st)) by (destruct Hf as [[? ? ? ?] _]; lia).
  rewrite get_continuous_data_front by assumption.
  unfold sys_write.
  destruct (Z.ltb_spec (write_accept env) 0); [assumption|].
  set (rv := Z.min _ _).
  assert (Hrv : 0 <= rv <= Buffer._size (aof_buf st))
    by (subst rv; destruct Hf as [[? ? ? ?] _]; lia).
  destruct (Z.ltb_spec rv 0); [lia|].
  destruct (_ >? 1000); simpl; now apply fifo_consume.
Qed.

Lemma logged_fifo {libc : Libc} st env cmd out handler :
  (forall s c o, same_log s (fst (handler s c o))) ->
  fifo (aof_buf st) -> fifo (aof_buf (fst (logged st env cmd out handler))).
Proof.
  intros Hsame Hf. unfold logged.
  set (st1 := if aof_enabled st then _ else st).
  assert (Hf1 : fifo (aof_buf st1)).
  { subst st1. destruct (aof_enabled st); [|assumption].
    simpl. now apply aof_write_command_fifo. }
  pose proof (Hsame st1 cmd out) as (Hb & _).
  destruct (handler st1 cmd out) as [st2 out1]. simpl in *.
  rewrite <- Hb in Hf1.
  destruct (aof_enabled st2); [now apply aof_flush_and_sync_fifo | assumption].
Qed.

Lemma do_aof_rewrite_fifo {libc : Libc} st env out :
  fifo (aof_buf st) -> fifo (aof_buf (fst (do_aof_rewrite st env out))).
Proof.
  intros Hf. unfold do_aof_rewrite.
  destruct (negb (aof_enabled st)); [assumption|].
  destruct (aof_rewriting st) eqn:Hrw; [assumption|].
  unfold aof_rewrite. rewrite Hrw.
  match goal with
  | |- context [if ?c then _ else _] => destruct c
  end.
  - exact Hf.
  - unfold aof_rewrite_finish. simpl aof_rewriting. cbv iota.
    match goal with
    | |- context [aof_flush_and_sync ?s env] =>
      assert (Hf2 : fifo (aof_buf (aof_flush_and_sync s env)))
        by (apply aof_flush_and_sync_fifo; destruct (_ >=? 0); exact Hf);
      revert Hf2; generalize (aof_flush_and_sync s env)
    end.
    intros s2 Hf2. simpl.
    destruct (negb (rename_ok env)); simpl; [exact Hf2|].
    destruct (_ <? 0); exact Hf2.
Qed.

(** Every command leaves the log buffer in a state that [append] and
    [consume] reach. *)
Lemma do_request_fifo {libc : Libc} st env cmd out :
  fifo (aof_buf st) -> fifo (aof_buf (fst (do_request st env cmd out))).
Proof.
  intros Hf. unfold do_request.
  repeat match goal with
  | |- context [if cmd_is ?c ?n ?s then _ else _] => destruct (cmd_is c n s)
  end;
  try exact Hf;
  try (apply logged_fifo; [|exact Hf]; first
         [ apply do_set_same_log | apply do_del_same_log | apply do_zadd_same_log
         | apply do_zrem_same_log | intros; apply do_expire_same_log ]).
  now apply do_aof_rewrite_fifo.
Qed.

(** * The count of an ARR across the wrap point *)

(** [out_end_arr] copies the count to the address of [out[ctx]] without
    wrapping.  With the tag of the ARR two bytes before the end of the
    array, only the first byte of the count reaches the buffer: for a set
    of 130 members the reply carries 260 elements and announces 4. *)
Example zquery_count_across_wrap :
  (let out := do_zquery (members_store 130)
                ["zquery"; "z"; "0"; ""; "0"; "1000"]%string drained_out in
   (Buffer.index drained_out (Buffer._size drained_out + 1),
    Buffer.capacity drained_out,
    map (fun row => length (snd row)) (store_view (members_store 130)),
    length (Buffer.contents out),
    take 5 (Buffer.contents out)))
  = (5999, 6000, [130%nat], (5 + 130 * 16)%nat, enc_arr 4).
Proof. vm_compute. reflexivity. Qed.

(** ** Every command keeps the sorted sets of the store in order *)

Section StoreOrder.
Context {libc : Libc} {ord : DblOrder libc}.

Lemma write_refs_sorted (d : gmap string Entry) (ws : list (string * Z)) :
  sorted_map d -> sorted_map (write_refs d ws).
Proof.
  unfold write_refs, sorted_map. revert d. induction ws as [|w ws IH]; intros d Hd; simpl; [exact Hd|].
  apply IH. intros k e. rewrite lookup_alter. case_decide; [|apply Hd].
  destruct (d !! fst w) as [e0|] eqn:Hk; simpl; [|discriminate].
  intros He. inversion He; subst. simpl. exact (Hd _ e0 Hk).
Qed.

Lemma write_refs_ent_zset (e : Entry) (ws : list (string * Z)) :
  zset (write_refs_ent e ws) = zset e.
Proof.
  unfold write_refs_ent. revert e. induction ws as [|w ws IH]; intros e; simpl; [reflexivity|].
  rewrite IH. destruct (String.eqb _ _); reflexivity.
Qed.

Lemma entry_set_ttl_sorted (st : State) (ent : Entry) (ttl now : Z) :
  db_sorted st ->
  db_sorted (fst (entry_set_ttl st ent ttl now)) /\
  zset (snd (entry_set_ttl st ent ttl now)) = zset ent.
Proof.
  intros Hs. unfold entry_set_ttl.
  destruct (_ && _).
  - destruct (heap_delete _ _) as [a ws]. simpl. split.
    + exact (write_refs_sorted (db st) ws Hs).
    + apply write_refs_ent_zset.
  - destruct (ttl >=? 0); [|split; [assumption | reflexivity]].
    destruct (heap_upsert _ _ _) as [a ws]. simpl. split.
    + exact (write_refs_sorted (db st) ws Hs).
    + apply write_refs_ent_zset.
Qed.

Lemma db_sorted_insert (d : gmap string Entry) (k0 : string) (e0 : Entry) :
  sorted_map d -> zsorted (zset e0) -> sorted_map (<[k0 := e0]> d).
Proof.
  intros Hd H0 k e. rewrite lookup_insert. case_decide.
  - intros He. inversion He; subst. exact H0.
  - apply Hd.
Qed.

Lemma db_sorted_delete (d : gmap string Entry) (k0 : string) :
  sorted_map d -> sorted_map (delete k0 d).
Proof.
  intros Hd k e. rewrite lookup_delete. case_decide; [discriminate | apply Hd].
Qed.

Lemma zsorted_nil : zsorted [].
Proof. split; constructor. Qed.

Lemma do_set_sorted st cmd out : db_sorted st -> db_sorted (fst (do_set st cmd out)).
Proof.
  intros Hs. unfold do_set.
  destruct (db st !! arg cmd 1) as [ent|] eqn:Hk.
  - destruct (negb _); [assumption|]. simpl.
    apply db_sorted_insert; [assumption|]. simpl. exact (Hs _ _ Hk).
  - simpl. apply db_sorted_insert; [assumption | apply zsorted_nil].
Qed.

Lemma do_del_sorted st cmd out : db_sorted st -> db_sorted (fst (do_del st cmd out)).
Proof.
  intros Hs. unfold do_del.
  destruct (db st !! arg cmd 1) as [ent|]; [|assumption]. simpl.
  unfold entry_del. apply entry_set_ttl_sorted.
  unfold db_sorted. simpl. now apply db_sorted_delete.
Qed.

Lemma do_expire_sorted st env cmd out :
  db_sorted st -> db_sorted (fst (do_expire st env cmd out)).
Proof.
  intros Hs. unfold do_expire.
  destruct (str2int _) as [ttl|]; [|assumption].
  destruct (db st !! arg cmd 1) as [ent|] eqn:Hk; [|assumption].
  destruct (entry_set_ttl_sorted st ent ttl (now_ms env) Hs) as [H1 H2].
  destruct (entry_set_ttl st ent ttl (now_ms env)) as [st1 ent1]. simpl in *.
  apply db_sorted_insert; [assumption|]. rewrite H2. exact (Hs _ _ Hk).
Qed.

Lemma do_zadd_sorted st cmd out : db_sorted st -> db_sorted (fst (do_zadd st cmd out)).
Proof.
  intros Hs. unfold do_zadd.
  destruct (str2dbl _) as [score|] eqn:Hscore; [|assumption].
  apply str2dbl_not_nan in Hscore.
  destruct (db st !! arg cmd 1) as [ent|] eqn:Hk.
  - destruct (negb _); [assumption|].
    pose proof (zset_insert_sorted (zset ent) (arg cmd 3) score (Hs _ _ Hk) Hscore) as Hi.
    destruct (zset_insert _ _ _) as [added zs]. simpl in *.
    now apply db_sorted_insert.
  - pose proof (zset_insert_sorted [] (arg cmd 3) score zsorted_nil Hscore) as Hi.
    simpl zset. destruct (zset_insert _ _ _) as [added zs]. simpl in *.
    now apply db_sorted_insert.
Qed.

Lemma do_zrem_sorted st cmd out : db_sorted st -> db_sorted (fst (do_zrem st cmd out)).
Proof.
  intros Hs. unfold do_zrem, expect_zset.
  destruct (db st !! arg cmd 1) as [ent|] eqn:Hk; [|assumption].
  destruct (type ent =? T_ZSET); [|assumption].
  destruct (zset_lookup _ _); [|assumption]. simpl.
  apply db_sorted_insert; [assumption|]. simpl.
  apply zset_delete_sorted. exact (Hs _ _ Hk).
Qed.

Lemma aof_rewrite_finish_db st env : db (aof_rewrite_finish st env) = db st.
Proof.
  unfold aof_rewrite_finish. destruct (negb _); [reflexivity|].
  match goal with
  | |- context [aof_flush_and_sync ?s env] =>
    pose proof (proj1 (aof_flush_and_sync_store s env)) as H;
    assert (Hs : db s = db st) by (destruct (_ >=? 0); reflexivity);
    rewrite Hs in H; clear Hs; revert H; generalize (aof_flush_and_sync s env)
  end.
  intros s2 H. destruct (negb _); simpl; [exact H|].
  destruct (_ <? 0); exact H.
Qed.

Lemma do_aof_rewrite_db st env out : db (fst (do_aof_rewrite st env out)) = db st.
Proof.
  unfold do_aof_rewrite. destruct (negb _); [reflexivity|].
  destruct (aof_rewriting st) eqn:Hrw; [reflexivity|].
  unfold aof_rewrite. rewrite Hrw.
  match goal with
  | |- context [if ?c then _ else _] => destruct c
  end; simpl; [reflexivity|].
  now rewrite aof_rewrite_finish_db.
Qed.

Lemma logged_sorted st env cmd out handler :
  (forall s c o, db_sorted s -> db_sorted (fst (handler s c o))) ->
  db_sorted st -> db_sorted (fst (logged st env cmd out handler)).
Proof.
  intros Hh Hs. unfold logged.
  set (st1 := if aof_enabled st then _ else st).
  assert (Hs1 : db_sorted st1) by (subst st1; destruct (aof_enabled st); exact Hs).
  specialize (Hh st1 cmd out Hs1).
  destruct (handler st1 cmd out) as [st2 out1]. simpl in *.
  destruct (aof_enabled st2); [|assumption].
  unfold db_sorted. now rewrite (proj1 (aof_flush_and_sync_store st2 env)).
Qed.

Lemma do_request_sorted st env cmd out :
  db_sorted st -> db_sorted (fst (do_request st env cmd out)).
Proof.
  intros Hs. unfold do_request.
  repeat match goal with
  | |- context [if cmd_is ?c ?n ?s then _ else _] => destruct (cmd_is c n s)
  end;
  try exact Hs;
  try (apply logged_sorted; [|exact Hs]; first
         [ apply do_set_sorted | apply do_del_sorted | apply do_zadd_sorted
         | apply do_zrem_sorted | intros; now apply do_expire_sorted ]).
  unfold db_sorted. now rewrite do_aof_rewrite_db.
Qed.

End StoreOrder.

Lemma init_state_sorted {libc : Libc} : db_sorted init_state.
Proof. intros k e H. simpl in H. now rewrite lookup_empty in H. Qed.

(** The store of scenario 4, reached from the initial state by three
    [zadd] commands, is in order. *)
Example scenario4_sorted : db_sorted scenario4_store.
Proof.
  unfold scenario4_store. repeat apply do_request_sorted. apply init_state_sorted.
Qed.
